(** * The ancestry / background / class manager of the PF2e system

    A shallow embedding of [src/module/item/abc/manager.ts]
    ([AncestryBackgroundClassManager]) and the properties of its
    feature resolution, ordering and level synchronisation. *)

From Stdlib Require Import ZArith String Ascii List Lia Sorted Permutation.
From stdpp Require Import base option list gmap strings pretty.

Open Scope string_scope.
Open Scope list_scope.
Open Scope Z_scope.

(** ** Data model *)

(** [source.type]: the three kinds the manager branches on, feats, and
    every other item type of the system. *)
Inductive ItemType := TyAncestry | TyBackground | TyClass | TyFeat | TyOther.

Global Instance ItemType_eq_dec : EqDecision ItemType.
Proof. solve_decision. Defined.

(** [ABCFeatureEntryData]: the fields the manager reads.  [pack] is an
    optional string; [level] is a JS number holding an integer. *)
Record ABCFeatureEntryData := mkEntry {
  entry_id : string;
  entry_pack : option string;
  entry_level : Z;
}.

Global Instance ABCFeatureEntryData_eq_dec : EqDecision ABCFeatureEntryData.
Proof. solve_decision. Defined.

(** [ItemSourcePF2e]: the plain source object of an item, with the union of
    the fields the manager touches on ancestry, background, class and feat
    sources.
      [slug]      is [data.slug] (null when absent),
      [featType]  is [data.featType.value],
      [level]     is [data.level.value],
      [location]  is [data.location],
      [sourceId]  is [flags.core?.sourceId] ([None] is undefined),
      [items]     is [data.items], a JS object used as a map from slot key
                  to entry, kept in the order [Object.values] lists it,
      [insertedClassFeaturesLevel] is the flag of that name under
                  [flags.pf2e]. *)
Record ItemSourcePF2e := mkSource {
  _id : string;
  name : string;
  type : ItemType;
  slug : option string;
  featType : string;
  level : Z;
  location : option string;
  sourceId : option string;
  items : list (string * ABCFeatureEntryData);
  insertedClassFeaturesLevel : option Z;
}.

Global Instance ItemSourcePF2e_eq_dec : EqDecision ItemSourcePF2e.
Proof. solve_decision. Defined.

Definition set_id (v : string) (s : ItemSourcePF2e) : ItemSourcePF2e :=
  mkSource v (name s) (type s) (slug s) (featType s) (level s) (location s)
           (sourceId s) (items s) (insertedClassFeaturesLevel s).

Definition set_level (v : Z) (s : ItemSourcePF2e) : ItemSourcePF2e :=
  mkSource (_id s) (name s) (type s) (slug s) (featType s) v (location s)
           (sourceId s) (items s) (insertedClassFeaturesLevel s).

Definition set_location (v : option string) (s : ItemSourcePF2e) : ItemSourcePF2e :=
  mkSource (_id s) (name s) (type s) (slug s) (featType s) (level s) v
           (sourceId s) (items s) (insertedClassFeaturesLevel s).

Definition set_insertedClassFeaturesLevel (v : Z) (s : ItemSourcePF2e) : ItemSourcePF2e :=
  mkSource (_id s) (name s) (type s) (slug s) (featType s) (level s) (location s)
           (sourceId s) (items s) (Some v).

(** A document of a compendium pack or of the world collection: its source
    and the data [prepareData] derived from the source.  What is derived is
    the system's business; [D] is the type of that derived data. *)
Record ItemPF2e (D : Type) := mkItem {
  _source : ItemSourcePF2e;
  data : D;
}.
Arguments mkItem {D} _ _.
Arguments _source {D} _.
Arguments data {D} _.

(** [game]: the compendium packs by name, each with its documents in the
    order the database returns them, and the world's [game.items] by id. *)
Record Game (D : Type) := mkGame {
  packs : gmap string (list (ItemPF2e D));
  game_items : gmap string (ItemPF2e D);
}.
Arguments mkGame {D} _ _.
Arguments packs {D} _.
Arguments game_items {D} _.

(** [CharacterPF2e]: the level and the embedded items.  An embedded item is
    kept as its source: the getters the manager reads on an embedded feat
    ([id], [level], [featType.value], [sourceId]) are the fields of that
    name of the source. *)
Record CharacterPF2e := mkActor {
  actor_level : Z;
  actor_items : list ItemSourcePF2e;
}.

(** [ABCManagerOptions]. *)
Record ABCManagerOptions := mkOptions {
  assurance : option (list string);
}.

(** What the manager can throw: its own two [ErrorPF2e] messages, the one of
    [getItemSource], the failure of a strict [game.packs.get], and the
    [TypeError] of reading a property of [undefined]. *)
Inductive Error :=
| InvalidItemType
| InvalidReference
| CannotFind (itemName packName : string)
| PackNotFound (packName : option string)
| TypeError.

(** The queries sent to compendium packs: by [_id] or by [data.slug]. *)
Inductive Query :=
| QueryIds (packName : string) (ids : list string)
| QuerySlug (packName : string) (slugs : list string).

Definition query_pack (q : Query) : string :=
  match q with QueryIds p _ => p | QuerySlug p _ => p end.

(** The state the manager's calls act on: how many identities [randomID]
    has handed out, the queries sent so far (oldest first), and the
    character passed as [actor], which the calls mutate. *)
Record St := mkSt {
  drawn : nat;
  queries : list Query;
  actor : CharacterPF2e;
}.

(** ** A state and exception monad *)

Definition M (A : Type) : Type := St -> (Error + A) * St.

Definition ret {A} (a : A) : M A := fun st => (inr a, st).

Definition throw {A} (e : Error) : M A := fun st => (inl e, st).

Definition bind {A B} (m : M A) (k : A -> M B) : M B :=
  fun st => match m st with
            | (inr a, st') => k a st'
            | (inl e, st') => (inl e, st')
            end.

Notation "x <- m ;; k" := (bind m (fun x => k))
  (at level 100, m at next level, right associativity).

Notation "m ;;; k" := (bind m (fun _ => k))
  (at level 100, right associativity).

(** [l.map(f)] with an effectful [f]: elements in order, the first throw
    ends the call. *)
Fixpoint mapM {A B} (f : A -> M B) (l : list A) : M (list B) :=
  match l with
  | [] => ret []
  | x :: l' => y <- f x ;; ys <- mapM f l' ;; ret (y :: ys)
  end.

(** A [for ... of] loop carrying an accumulator. *)
Fixpoint forM {A B} (f : B -> A -> M B) (l : list A) (acc : B) : M B :=
  match l with
  | [] => ret acc
  | x :: l' => acc' <- f acc x ;; forM f l' acc'
  end.

Definition get_actor : M CharacterPF2e := fun st => (inr (actor st), st).

Definition put_actor (a : CharacterPF2e) : M unit :=
  fun st => (inr tt, mkSt (drawn st) (queries st) a).

Definition send (q : Query) : M unit :=
  fun st => (inr tt, mkSt (drawn st) (queries st ++ [q]) (actor st)).

(** ** JavaScript helpers *)

(** [!!s] for an optional string: undefined and the empty string are falsy. *)
Definition truthy (s : option string) : bool :=
  match s with
  | Some s' => negb (String.eqb s' EmptyString)
  | None => false
  end.

(** [a > b] on strings: lexicographic on code units. *)
Definition str_gt (a b : string) : bool :=
  match String.compare a b with Gt => true | _ => false end.

(** [new Set(l)] iterated: the distinct elements in order of first
    occurrence. *)
Fixpoint js_Set {A} `{EqDecision A} (l : list A) : list A :=
  match l with
  | [] => []
  | x :: l' => x :: filter (fun y => y <> x) (js_Set l')
  end.

(** A field that may be null matches [{ $in: values }] when it holds one of
    the values. *)
Definition matches_in (values : list string) (field : option string) : Prop :=
  match field with
  | Some v => v ∈ values
  | None => False
  end.

Global Instance matches_in_dec values field : Decision (matches_in values field).
Proof. destruct field; simpl; apply _. Defined.

(** [Object.values]. *)
Definition Object_values {A} (o : list (string * A)) : list A := o.*2.

(** [Array.prototype.sort] with a comparator.  The engine's sort is modelled
    as an insertion sort: the elements are taken left to right and each is
    put before the first already placed element the comparator orders it
    before (a negative result). *)
Fixpoint sort_insert {A} (comparefn : A -> A -> Z) (x : A) (l : list A) : list A :=
  match l with
  | [] => [x]
  | y :: l' => if comparefn x y <? 0 then x :: y :: l' else y :: sort_insert comparefn x l'
  end.

Definition Array_sort {A} (comparefn : A -> A -> Z) (l : list A) : list A :=
  fold_left (fun acc x => sort_insert comparefn x acc) l [].

(** ** Worked examples: collaborators and worlds

    Instances of the collaborators the manager is parameterised by, and the
    small worlds the examples and counterexamples below are run in. *)

Module Demo.

(** Identities: the [k]-th is [id] followed by [k] in decimal. *)
Definition idSource (k : nat) : string := String "i" (String "d" (pretty k)).

(** Slugs: letters lowered, every run of other characters between two
    words turned into one hyphen. *)
Definition lower (c : ascii) : ascii :=
  let n := nat_of_ascii c in
  if ((65 <=? n) && (n <=? 90))%nat then ascii_of_nat (n + 32) else c.

Definition alnum (c : ascii) : bool :=
  let n := nat_of_ascii c in
  (((48 <=? n) && (n <=? 57)) || ((97 <=? n) && (n <=? 122)))%nat.

Inductive SlugState := AtStart | InWord | InGap.

Fixpoint sluggify_from (state : SlugState) (s : string) : string :=
  match s with
  | EmptyString => EmptyString
  | String c s' =>
      let c' := lower c in
      if alnum c'
      then match state with
           | InGap => String "-" (String c' (sluggify_from InWord s'))
           | _ => String c' (sluggify_from InWord s')
           end
      else sluggify_from (match state with AtStart => AtStart | _ => InGap end) s'
  end.

Definition sluggify (s : string) : string := sluggify_from AtStart s.

(** Derived data: the level as prepared. *)
Definition derive (s : ItemSourcePF2e) : Z := level s.

Definition featDoc (i n ft : string) (sl : option string) (lv : Z) (sid : option string)
    : ItemPF2e Z :=
  mkItem (mkSource i n TyFeat sl ft lv None sid [] None) lv.

Definition classFeatureDoc (i n : string) (lv : Z) : ItemPF2e Z :=
  featDoc i n "classfeature" None lv (Some i).

Definition attachedFeature (i n : string) (lv : Z) (sid : option string) : ItemSourcePF2e :=
  mkSource i n TyFeat None "classfeature" lv None sid [] None.

Definition noItems : St := mkSt 0 [] (mkActor 1 []).

(** The ordering example: entries of levels 3, 1, 1 for the features named
    Zeta, Beta and Alpha, whose own levels differ from the entries'. *)
Definition orderingGame : Game Z :=
  mkGame {[ "pf2e.classfeatures" :=
              [classFeatureDoc "a" "Zeta" 7; classFeatureDoc "b" "Beta" 9;
               classFeatureDoc "c" "Alpha" 1] ]} ∅.

Definition orderingClass : ItemSourcePF2e :=
  mkSource "cls" "Fighter" TyClass (Some "fighter") EmptyString 0 None None
    [("k1", mkEntry "a" (Some "pf2e.classfeatures") 3);
     ("k2", mkEntry "b" (Some "pf2e.classfeatures") 1);
     ("k3", mkEntry "c" (Some "pf2e.classfeatures") 1)] None.

Definition orderingStart : St := mkSt 0 [] (mkActor 3 []).

(** A class with an entry of level 0 in a pack and an entry of level 1 for
    a world item whose own level is 5; the character is of level 1. *)
Definition levelGame : Game Z :=
  mkGame {[ "pf2e.classfeatures" := [classFeatureDoc "z" "Attunement" 0] ]}
         {[ "g" := classFeatureDoc "g" "Homebrew" 5 ]}.

Definition levelClass : ItemSourcePF2e :=
  mkSource "cls" "Mystic" TyClass (Some "mystic") EmptyString 0 None None
    [("k1", mkEntry "z" (Some "pf2e.classfeatures") 0);
     ("k2", mkEntry "g" None 1)] None.

(** A class granting features at the levels 1, 2, 3 and 5, attached to a
    character of level 1 who holds the feature of level 1. *)
Definition progressionGame : Game Z :=
  mkGame {[ "pf2e.classfeatures" :=
              [classFeatureDoc "f1" "First" 1; classFeatureDoc "f2" "Second" 2;
               classFeatureDoc "f3" "Third" 3; classFeatureDoc "f5" "Fifth" 5] ]} ∅.

Definition progressionClass : ItemSourcePF2e :=
  mkSource "cls" "Fighter" TyClass (Some "fighter") EmptyString 0 None None
    [("k1", mkEntry "f1" (Some "pf2e.classfeatures") 1);
     ("k2", mkEntry "f2" (Some "pf2e.classfeatures") 2);
     ("k3", mkEntry "f3" (Some "pf2e.classfeatures") 3);
     ("k5", mkEntry "f5" (Some "pf2e.classfeatures") 5)] (Some 1).

Definition progressionStart : St :=
  mkSt 0 [] (mkActor 1 [attachedFeature "x1" "First" 1 (Some "f1"); progressionClass]).

(** An ancestry granting the assurance feat, and the feats pack with the
    variant for Stealth. *)
Definition assuranceGame : Game Z :=
  mkGame {[ "pf2e.feats-srd" :=
              [featDoc "as" "Assurance" "skill" (Some "assurance") 1 (Some "as");
               featDoc "ast" "Assurance (Stealth)" "skill" (Some "assurance-stealth") 1
                       (Some "ast");
               featDoc "kn" "Keen Eyes" "ancestryfeature" (Some "keen-eyes") 0 (Some "kn")] ]} ∅.

Definition assuranceAncestry : ItemSourcePF2e :=
  mkSource "anc" "Human" TyAncestry (Some "human") EmptyString 0 None None
    [("k1", mkEntry "kn" (Some "pf2e.feats-srd") 0);
     ("k2", mkEntry "as" (Some "pf2e.feats-srd") 1)] None.

Definition plainAncestry : ItemSourcePF2e :=
  mkSource "anc" "Elf" TyAncestry (Some "elf") EmptyString 0 None None
    [("k1", mkEntry "kn" (Some "pf2e.feats-srd") 0)] None.

(** A pack that holds, under the identity an entry names, an item that is
    not a feat. *)
Definition wrongShapeGame : Game Z :=
  mkGame {[ "pf2e.actionspf2e" :=
              [mkItem (mkSource "act" "Seek" TyOther (Some "seek") EmptyString 0 None None [] None) 0] ]}
         ∅.

Definition wrongShapeEntries : list ABCFeatureEntryData :=
  [mkEntry "act" (Some "pf2e.actionspf2e") 1].

Definition wrongShapeAncestry : ItemSourcePF2e :=
  mkSource "anc" "Gnome" TyAncestry (Some "gnome") EmptyString 0 None None
    [("k1", mkEntry "act" (Some "pf2e.actionspf2e") 1)] None.

(** Five entries in one pack and two in another. *)
Definition batchGame : Game Z :=
  mkGame {[ "feats-srd" :=
              [classFeatureDoc "s1" "One" 1; classFeatureDoc "s2" "Two" 1;
               classFeatureDoc "s3" "Three" 1; classFeatureDoc "s4" "Four" 1;
               classFeatureDoc "s5" "Five" 1];
            "feats-extra" := [classFeatureDoc "x1" "Six" 1; classFeatureDoc "x2" "Seven" 1] ]}
         ∅.

Definition batchEntries : list ABCFeatureEntryData :=
  [mkEntry "s1" (Some "feats-srd") 1; mkEntry "x1" (Some "feats-extra") 1;
   mkEntry "s2" (Some "feats-srd") 1; mkEntry "s3" (Some "feats-srd") 1;
   mkEntry "x2" (Some "feats-extra") 1; mkEntry "s4" (Some "feats-srd") 1;
   mkEntry "s5" (Some "feats-srd") 1].

(** A class feature attached without a recorded source, and a class whose
    level 2 feature has none either. *)
Definition unrecordedGame : Game Z :=
  mkGame {[ "pf2e.classfeatures" :=
              [featDoc "n2" "Bravery" "classfeature" None 2 None] ]} ∅.

Definition unrecordedClass : ItemSourcePF2e :=
  mkSource "cls" "Fighter" TyClass (Some "fighter") EmptyString 0 None None
    [("k2", mkEntry "n2" (Some "pf2e.classfeatures") 2)] (Some 1).

Definition unrecordedStart : St :=
  mkSt 0 [] (mkActor 1 [attachedFeature "x1" "Attack of Opportunity" 1 None; unrecordedClass]).

(** A character of level 1 whose class names, for level 2, the item that is
    not a feat; a character who holds an ancestry; and a character of level
    5 who holds class features of the levels 1, 3 and 5 and a feat of level
    4 that is no class feature. *)
Definition brokenClass : ItemSourcePF2e :=
  mkSource "cls" "Fighter" TyClass (Some "fighter") EmptyString 0 None None
    [("k2", mkEntry "act" (Some "pf2e.actionspf2e") 2)] (Some 1).

Definition brokenStart : St := mkSt 0 [] (mkActor 1 [brokenClass]).

Definition ancestryHolder : St := mkSt 0 [] (mkActor 1 [plainAncestry]).

Definition levelledStart : St :=
  mkSt 0 []
    (mkActor 5 [attachedFeature "x1" "First" 1 (Some "f1");
                mkSource "y4" "Toughness" TyFeat (Some "toughness") "general" 4 None None
                         [] None;
                attachedFeature "x3" "Third" 3 (Some "f3");
                progressionClass;
                attachedFeature "x5" "Fifth" 5 (Some "f5")]).

(** A class whose entry of level 2 names a general feat of the feats pack,
    attached to a character of level 1. *)
Definition trainingGame : Game Z :=
  mkGame {[ "pf2e.feats-srd" :=
              [featDoc "sb" "Shield Block" "general" (Some "shield-block") 1 (Some "sb")] ]} ∅.

Definition trainingClass : ItemSourcePF2e :=
  mkSource "cls" "Fighter" TyClass (Some "fighter") EmptyString 0 None None
    [("k1", mkEntry "sb" (Some "pf2e.feats-srd") 2)] (Some 1).

Definition trainingStart : St := mkSt 0 [] (mkActor 1 [trainingClass]).

End Demo.

(** ** The manager *)

Section Manager.

(** The collaborators the manager reaches through globals and imports:
    [derive] is what [prepareData] computes from a document's source,
    [sluggify] is the function of that name of [@util], [idSource k] is the
    identity the [k]-th call of [randomID(16)] returns, and [game] is the
    global of that name. *)
Context {D : Type}.
Context (derive : ItemSourcePF2e -> D).
Context (sluggify : string -> string).
Context (idSource : nat -> string).
Context (game : Game D).

(** [randomID(16)]. *)
Definition randomID : M string :=
  fun st => (inr (idSource (drawn st)), mkSt (S (drawn st)) (queries st) (actor st)).

(** [item.toObject()]. *)
Definition toObject (item : ItemPF2e D) : ItemSourcePF2e := _source item.

(** [item instanceof FeatPF2e]: the class of a document follows its type. *)
Definition instanceof_FeatPF2e (item : ItemPF2e D) : bool :=
  bool_decide (type (_source item) = TyFeat).

(** [item.featType]: a getter of [FeatPF2e]; on a document of any other
    class the property is undefined. *)
Definition featType_getter (item : ItemPF2e D) : option string :=
  if instanceof_FeatPF2e item then Some (featType (_source item)) else None.

(** [item.prepareData()]. *)
Definition prepareData (item : ItemPF2e D) : ItemPF2e D :=
  mkItem (_source item) (derive (_source item)).

(** [game.packs.get(pack, { strict: true })]. *)
Definition packs_get (pack : option string) : M (list (ItemPF2e D)) :=
  match pack ≫= (fun p => packs game !! p) with
  | Some docs => ret docs
  | None => throw (PackNotFound pack)
  end.

(** [pack.getDocuments({ _id: { $in: ids } })]: one query. *)
Definition getDocuments_ids (packName : string) (docs : list (ItemPF2e D))
    (ids : list string) : M (list (ItemPF2e D)) :=
  send (QueryIds packName ids) ;;;
  ret (filter (fun d => _id (_source d) ∈ ids) docs).

(** [pack.getDocuments({ "data.slug": { $in: slugs } })]: one query. *)
Definition getDocuments_slug (packName : string) (docs : list (ItemPF2e D))
    (slugs : list string) : M (list (ItemPF2e D)) :=
  send (QuerySlug packName slugs) ;;;
  ret (filter (fun d => matches_in slugs (slug (_source d))) docs).

(** The body of the loop over the fetched features of one pack in
    [getFromCompendium]. *)
Definition overrideLevel (entries : list ABCFeatureEntryData)
    (feature : ItemPF2e D) : M (ItemPF2e D) :=
  match List.find (fun e => bool_decide (entry_id e = _id (_source feature))) entries with
  | Some entry =>
      match featType_getter feature with
      | None => throw TypeError
      | Some ft =>
          if bool_decide (ft = "classfeature")
          then ret (prepareData (mkItem (set_level (entry_level entry) (_source feature))
                                        (data feature)))
          else ret feature
      end
  | None => ret feature
  end.

(** The body of the loop over the packs in [getFromCompendium]. *)
Definition fetchPack (entries : list ABCFeatureEntryData)
    (feats : list (ItemPF2e D)) (pack : option string) : M (list (ItemPF2e D)) :=
  let entryIds := entry_id <$> filter (fun e => entry_pack e = pack) entries in
  docs <- packs_get pack ;;
  features <- getDocuments_ids (default EmptyString pack) docs entryIds ;;
  features' <- mapM (overrideLevel entries) features ;;
  ret (feats ++ features').

Definition getFromCompendium (entries : list ABCFeatureEntryData) : M (list (ItemPF2e D)) :=
  let packs := js_Set (entry_pack <$> entries) in
  forM (fetchPack entries) packs [].

(** The two callbacks of [getFeatures]. *)
Definition fromCompendiumFeat (locationId : string) (feat : ItemPF2e D) : M ItemSourcePF2e :=
  if instanceof_FeatPF2e feat
  then id <- randomID ;;
       ret (set_location (Some locationId) (set_id id (toObject feat)))
  else throw InvalidReference.

Definition fromGameEntry (entry : ABCFeatureEntryData) : M ItemSourcePF2e :=
  match game_items game !! entry_id entry with
  | Some item =>
      if instanceof_FeatPF2e item
      then id <- randomID ;; ret (set_id id (toObject item))
      else throw InvalidReference
  | None => throw InvalidReference
  end.

Definition getFeatures (entries : list ABCFeatureEntryData) (locationId : string)
    : M (list ItemSourcePF2e) :=
  if bool_decide (entries = []) then ret [] else
  let packEntries := filter (fun e => truthy (entry_pack e)) entries in
  fromPacks <- (if bool_decide (packEntries = []) then ret [] else
                  compendiumFeats <- getFromCompendium packEntries ;;
                  mapM (fromCompendiumFeat locationId) compendiumFeats) ;;
  let gameEntries := filter (fun e => ¬ truthy (entry_pack e)) entries in
  fromGame <- mapM fromGameEntry gameEntries ;;
  ret (fromPacks ++ fromGame).

(** The filter of [getClassFeaturesForLevel]. *)
Definition inWindow (minLevel actorLevel : Z) (entryData : ABCFeatureEntryData) : Prop :=
  actorLevel >= entry_level entryData ∧ entry_level entryData > minLevel.

Global Instance inWindow_dec minLevel actorLevel entryData :
  Decision (inWindow minLevel actorLevel entryData).
Proof. unfold inWindow. apply _. Defined.

Definition getClassFeaturesForLevel (classSource : ItemSourcePF2e)
    (minLevel actorLevel : Z) : M (list ItemSourcePF2e) :=
  if bool_decide (minLevel >= actorLevel) then ret [] else
  let itemId := _id classSource in
  let featureEntries := items classSource in
  let featuresToAdd := filter (inWindow minLevel actorLevel) (Object_values featureEntries) in
  getFeatures featuresToAdd itemId.

(** [getItemSource(packName, name)]. *)
Definition getItemSource (packName itemName : string) : M ItemSourcePF2e :=
  let slug := sluggify itemName in
  pack <- packs_get (Some packName) ;;
  docs <- getDocuments_slug packName pack [slug] ;;
  match docs with
  | [doc] => ret (toObject doc)
  | _ => throw (CannotFind itemName packName)
  end.

(** The character's side: [actor.ancestry], [actor.background] and
    [actor.class] are the first embedded item of the type, [delete] removes
    the item of that identity, [createEmbeddedDocuments] (with [keepId])
    embeds the sources as they are, after the items already there, and
    [deleteEmbeddedDocuments] removes the items whose identity is listed. *)
Definition itemOfType (ty : ItemType) (a : CharacterPF2e) : option ItemSourcePF2e :=
  List.find (fun i => bool_decide (type i = ty)) (actor_items a).

Definition deleteEmbeddedDocuments (ids : list string) : M unit :=
  a <- get_actor ;;
  put_actor (mkActor (actor_level a) (filter (fun i => _id i ∉ ids) (actor_items a))).

Definition delete_item (item : option ItemSourcePF2e) : M unit :=
  match item with
  | Some i => deleteEmbeddedDocuments [_id i]
  | None => ret tt
  end.

Definition createEmbeddedDocuments (sources : list ItemSourcePF2e) : M (list ItemSourcePF2e) :=
  a <- get_actor ;;
  put_actor (mkActor (actor_level a) (actor_items a ++ sources)) ;;;
  ret sources.

(** The body of the loop over [options.assurance] in [addFeatures]. *)
Definition substituteAssurance (itemsToCreate : list ItemSourcePF2e) (skill : string)
    : M (list ItemSourcePF2e) :=
  match list_find (fun item => slug item = Some "assurance") itemsToCreate with
  | Some (index, found) =>
      let location := location found in
      variant <- getItemSource "pf2e.feats-srd" ("Assurance (" +:+ skill +:+ ")") ;;
      id <- randomID ;;
      ret (<[index := set_location location (set_id id variant)]> itemsToCreate)
  | None => ret itemsToCreate
  end.

Definition addFeatures (itemSource : ItemSourcePF2e) (createSource : bool)
    (options : option ABCManagerOptions) : M (list ItemSourcePF2e) :=
  sourceAndItems <- (if createSource
                     then id <- randomID ;;
                          ret (set_id id itemSource, [set_id id itemSource])
                     else ret (itemSource, [])) ;;
  let itemSource := sourceAndItems.1 in
  let entriesData := Object_values (items itemSource) in
  features <- getFeatures entriesData (_id itemSource) ;;
  let itemsToCreate := sourceAndItems.2 ++ features in
  itemsToCreate <- match options ≫= assurance with
                   | Some skills => forM substituteAssurance skills itemsToCreate
                   | None => ret itemsToCreate
                   end ;;
  createEmbeddedDocuments itemsToCreate.

(** The comparator of the class branch of [addABCItem]. *)
Definition compareFeatures (featureA featureB : ItemSourcePF2e) : Z :=
  let levelA := level featureA in
  let levelB := level featureB in
  if bool_decide (levelA > levelB) then 1
  else if bool_decide (levelA = levelB)
       then (if str_gt (name featureA) (name featureB) then 1 else -1)
       else -1.

Definition addABCItem (source : ItemSourcePF2e) (options : option ABCManagerOptions)
    : M (list ItemSourcePF2e) :=
  match type source with
  | TyAncestry =>
      a <- get_actor ;;
      delete_item (itemOfType TyAncestry a) ;;;
      addFeatures source true options
  | TyBackground =>
      a <- get_actor ;;
      delete_item (itemOfType TyBackground a) ;;;
      addFeatures source true options
  | TyClass =>
      a <- get_actor ;;
      delete_item (itemOfType TyClass a) ;;;
      id <- randomID ;;
      a <- get_actor ;;
      let source := set_insertedClassFeaturesLevel (actor_level a) (set_id id source) in
      itemsToCreate <- getClassFeaturesForLevel source 0 (actor_level a) ;;
      let itemsToCreate := Array_sort compareFeatures itemsToCreate in
      createEmbeddedDocuments (itemsToCreate ++ [source])
  | _ => throw InvalidItemType
  end.

(** [actor.itemTypes.feat.filter(feat => feat.featType.value === "classfeature")]. *)
Definition isClassFeature (i : ItemSourcePF2e) : Prop :=
  type i = TyFeat ∧ featType i = "classfeature".

Global Instance isClassFeature_dec i : Decision (isClassFeature i).
Proof. unfold isClassFeature. apply _. Defined.

Definition classFeatures (a : CharacterPF2e) : list ItemSourcePF2e :=
  filter isClassFeature (actor_items a).

(** The filter of the upward branch of [ensureClassFeaturesForLevel]. *)
Definition alreadyAttached (current : list ItemSourcePF2e) (feature : ItemSourcePF2e) : Prop :=
  Exists (fun currentFeature => sourceId currentFeature = sourceId feature) current.

Global Instance alreadyAttached_dec current feature : Decision (alreadyAttached current feature).
Proof. unfold alreadyAttached. apply _. Defined.

Definition ensureClassFeaturesForLevel (newLevel : Z) : M unit :=
  a <- get_actor ;;
  match itemOfType TyClass a with
  | None => ret tt
  | Some actorClass =>
      let current := classFeatures a in
      if bool_decide (newLevel > actor_level a) then
        resolved <- getClassFeaturesForLevel actorClass (actor_level a) newLevel ;;
        let classFeaturesToCreate := filter (fun feature => ¬ alreadyAttached current feature) resolved in
        createEmbeddedDocuments classFeaturesToCreate ;;;
        ret tt
      else if bool_decide (newLevel < actor_level a) then
        let classFeaturestoDelete := _id <$> filter (fun feat => level feat > newLevel) current in
        deleteEmbeddedDocuments classFeaturestoDelete
      else ret tt
  end.

(** ** What the resolver computes, stated without state

    The definitions below describe the results of the fetch and of the
    resolution as plain functions of the entries and of [game]; the lemmas
    of the next part relate the manager's calls to them. *)

Definition entryIds (entries : list ABCFeatureEntryData) (pack : option string) : list string :=
  entry_id <$> filter (fun e => entry_pack e = pack) entries.

(** The documents one pack returns for the entries that name it. *)
Definition fetched (entries : list ABCFeatureEntryData) (pack : option string)
    : list (ItemPF2e D) :=
  match pack ≫= (fun p => packs game !! p) with
  | Some docs => filter (fun d => _id (_source d) ∈ entryIds entries pack) docs
  | None => []
  end.

(** A fetched feat after the loop of [getFromCompendium]. *)
Definition overridden (entries : list ABCFeatureEntryData) (d : ItemPF2e D) : ItemPF2e D :=
  match List.find (fun e => bool_decide (entry_id e = _id (_source d))) entries with
  | Some entry =>
      if bool_decide (featType (_source d) = "classfeature")
      then prepareData (mkItem (set_level (entry_level entry) (_source d)) (data d))
      else d
  | None => d
  end.

Definition compendiumFeats (entries : list ABCFeatureEntryData) : list (ItemPF2e D) :=
  pack ← js_Set (entry_pack <$> entries) ; overridden entries <$> fetched entries pack.

(** The packs exist and hold feats only under the identities asked for. *)
Definition packOK (entries : list ABCFeatureEntryData) (pack : option string) : Prop :=
  is_Some (pack ≫= (fun p => packs game !! p)) ∧
  Forall (fun d => type (_source d) = TyFeat) (fetched entries pack).

Definition compendiumOK (entries : list ABCFeatureEntryData) : Prop :=
  Forall (packOK entries) (js_Set (entry_pack <$> entries)).

Definition expectedQueries (entries : list ABCFeatureEntryData) : list Query :=
  (fun pack => QueryIds (default EmptyString pack) (entryIds entries pack))
    <$> js_Set (entry_pack <$> entries).

Definition gameEntryOK (entry : ABCFeatureEntryData) : Prop :=
  ∃ item, game_items game !! entry_id entry = Some item ∧ type (_source item) = TyFeat.

Definition packEntries (entries : list ABCFeatureEntryData) : list ABCFeatureEntryData :=
  filter (fun e => truthy (entry_pack e)) entries.

Definition gameEntries (entries : list ABCFeatureEntryData) : list ABCFeatureEntryData :=
  filter (fun e => ¬ truthy (entry_pack e)) entries.

Definition resolvable (entries : list ABCFeatureEntryData) : Prop :=
  compendiumOK (packEntries entries) ∧ Forall gameEntryOK (gameEntries entries).

(** The resolved sources before identities are assigned. *)
Definition resolvedSources (entries : list ABCFeatureEntryData) (locationId : string)
    : list ItemSourcePF2e :=
  ((fun feat => set_location (Some locationId) (toObject feat))
     <$> compendiumFeats (packEntries entries))
  ++ omap (fun entry => toObject <$> game_items game !! entry_id entry) (gameEntries entries).

(** The identities [randomID] assigns from its [n]-th call on, in order. *)
Definition stamp (n : nat) (sources : list ItemSourcePF2e) : list ItemSourcePF2e :=
  imap (fun i s => set_id (idSource (n + i)) s) sources.

(** The resolution of one entry, as the specification words it: an entry
    with a pack resolves to the document of that identity in the pack, its
    level overwritten by the entry of that identity when it is a class
    feature, and carries the location; an entry without a pack resolves to
    the world item of that identity, as it is.  The resolved feature is
    then given an identity drawn from the generator; [reidentified f f0]
    says no more than that [f] and [f0] agree in everything but the
    identity. *)
Inductive resolution (entries : list ABCFeatureEntryData) (locationId : string)
    : ABCFeatureEntryData -> ItemSourcePF2e -> Prop :=
| resolution_pack entry p docs d :
    entry_pack entry = Some p ->
    p <> EmptyString ->
    packs game !! p = Some docs ->
    d ∈ docs ->
    _id (_source d) = entry_id entry ->
    resolution entries locationId entry
      (set_location (Some locationId) (_source (overridden (packEntries entries) d)))
| resolution_game entry item :
    ¬ truthy (entry_pack entry) ->
    game_items game !! entry_id entry = Some item ->
    resolution entries locationId entry (_source item).

Definition reidentified (f f0 : ItemSourcePF2e) : Prop := f = set_id (_id f) f0.

(** ** What the assurance loop does, stated as a relation

    One skill at a time: a skill is skipped when no item of the batch has
    the slug, and otherwise the first such item is replaced, at its index,
    by the variant the feats pack holds under the slug of
    [Assurance (skill)], with an identity of the generator that differs from
    the one of the item it replaces, and with the location of that item. *)
Inductive substituted : list string -> list ItemSourcePF2e -> list ItemSourcePF2e -> Prop :=
| substituted_done batch :
    substituted [] batch batch
| substituted_skip skill skills batch batch' :
    list_find (fun item => slug item = Some "assurance") batch = None ->
    substituted skills batch batch' ->
    substituted (skill :: skills) batch batch'
| substituted_replace skill skills batch index found docs doc k batch' :
    list_find (fun item => slug item = Some "assurance") batch = Some (index, found) ->
    packs game !! "pf2e.feats-srd" = Some docs ->
    filter (fun d => matches_in [sluggify ("Assurance (" +:+ skill +:+ ")")]
                                (slug (_source d))) docs = [doc] ->
    idSource k <> _id found ->
    substituted skills
      (<[index := set_location (location found) (set_id (idSource k) (toObject doc))]> batch)
      batch' ->
    substituted (skill :: skills) batch batch'.

(** The order the class branch sorts by: level ascending, then name
    ascending. *)
Definition featureLe (a b : ItemSourcePF2e) : Prop :=
  level a < level b ∨ (level a = level b ∧ String.leb (name a) (name b) = true).

(** The character's level as the caller records it on a level change. *)
Definition setActorLevel (newLevel : Z) (st : St) : St :=
  mkSt (drawn st) (queries st) (mkActor newLevel (actor_items (actor st))).

(** ** States and batches the proofs speak of *)

(** A call leaves the character alone. *)
Definition keepsActor {A} (m : M A) : Prop :=
  ∀ st, actor (m st).2 = actor st.

Global Instance packOK_dec entries pack : Decision (packOK entries pack).
Proof. unfold packOK. apply _. Defined.

(** The id query sent to one pack. *)
Definition queryOf (entries : list ABCFeatureEntryData) (pack : option string) : Query :=
  QueryIds (default EmptyString pack) (entryIds entries pack).

(** The state after further queries were sent, after further identities
    were drawn, with another character, with further items embedded, and
    without the items of the listed identities. *)
Definition addQueries (sent : list Query) (st : St) : St :=
  mkSt (drawn st) (queries st ++ sent) (actor st).

Global Instance compendiumOK_dec entries : Decision (compendiumOK entries).
Proof. unfold compendiumOK. apply _. Defined.

Definition addDrawn (n : nat) (st : St) : St :=
  mkSt (drawn st + n) (queries st) (actor st).

Global Instance gameEntryOK_dec entry : Decision (gameEntryOK entry).
Proof.
  unfold gameEntryOK. destruct (game_items game !! entry_id entry) as [item|].
  - destruct (decide (type (_source item) = TyFeat)) as [H|H].
    + left. eauto.
    + right. intros (item' & [= <-] & ?). done.
  - right. by intros (item' & [=] & ?).
Defined.

(** The sources of the world items the entries name. *)
Definition gameSources (entries : list ABCFeatureEntryData) : list ItemSourcePF2e :=
  omap (fun entry => toObject <$> game_items game !! entry_id entry) entries.

Global Instance resolvable_dec entries : Decision (resolvable entries).
Proof. unfold resolvable. apply _. Defined.

(** The entries [getClassFeaturesForLevel] selects. *)
Definition window (classSource : ItemSourcePF2e) (minLevel actorLevel : Z)
    : list ABCFeatureEntryData :=
  filter (inWindow minLevel actorLevel) (Object_values (items classSource)).

(** The character after [actor.ancestry?.delete()] and the like. *)
Definition withoutItem (ty : ItemType) (a : CharacterPF2e) : CharacterPF2e :=
  match itemOfType ty a with
  | Some i => mkActor (actor_level a) (filter (fun j => _id j ∉ [_id i]) (actor_items a))
  | None => a
  end.

Definition setActor (a : CharacterPF2e) (st : St) : St :=
  mkSt (drawn st) (queries st) a.

Definition embed (sources : list ItemSourcePF2e) (st : St) : St :=
  setActor (mkActor (actor_level (actor st)) (actor_items (actor st) ++ sources)) st.

(** The class item as the class branch attaches it, and the state in which
    the branch resolves the features. *)
Definition classItem (source : ItemSourcePF2e) (st : St) : ItemSourcePF2e :=
  set_insertedClassFeaturesLevel (actor_level (actor st))
    (set_id (idSource (drawn st)) source).

Definition classStart (st : St) : St :=
  addDrawn 1 (setActor (withoutItem TyClass (actor st)) st).

(** [classFeaturesToCreate] and [classFeaturestoDelete]. *)
Definition toCreate (current resolved : list ItemSourcePF2e) : list ItemSourcePF2e :=
  filter (fun feature => ¬ alreadyAttached current feature) resolved.

Definition toDelete (newLevel : Z) (current : list ItemSourcePF2e) : list string :=
  _id <$> filter (fun feat => level feat > newLevel) current.

Definition without (ids : list string) (st : St) : St :=
  setActor (mkActor (actor_level (actor st))
                    (filter (fun i => _id i ∉ ids) (actor_items (actor st)))) st.

(** Every identity in the batch was drawn from the generator. *)
Definition drawnIds (st : St) (batch : list ItemSourcePF2e) : Prop :=
  Forall (fun i => ∃ k, (k < drawn st)%nat ∧ _id i = idSource k) batch.

(** The errors a call can end with. *)
Definition throwsOnly {A} (P : Error -> Prop) (m : M A) : Prop :=
  ∀ st e st', m st = (inl e, st') -> P e.

(** The errors of the resolver, and those of an attach. *)
Definition resolverError (e : Error) : Prop :=
  e = InvalidReference ∨ e = TypeError ∨ ∃ pack, e = PackNotFound pack.

Definition attachError (e : Error) : Prop :=
  resolverError e ∨ ∃ itemName, e = CannotFind itemName "pf2e.feats-srd".

(** The identities of the batch are pairwise distinct draws of the
    generator, numbered from [lo] up to [hi] excluded. *)
Definition distinctDraws (lo hi : nat) (batch : list ItemSourcePF2e) : Prop :=
  NoDup (_id <$> batch) ∧
  Forall (fun i => ∃ k, (lo <= k < hi)%nat ∧ _id i = idSource k) batch.

(** How many items of the batch have the slug [assurance]. *)
Definition assuranceCount (batch : list ItemSourcePF2e) : nat :=
  length (filter (fun item => slug item = Some "assurance") batch).

(** The three kinds [addABCItem] branches on. *)
Definition isABC (ty : ItemType) : Prop :=
  ty = TyAncestry ∨ ty = TyBackground ∨ ty = TyClass.

(** ** Running the monad *)

Lemma bind_inr {A B} (m : M A) (k : A -> M B) st b st' :
  bind m k st = (inr b, st') ->
  ∃ a st1, m st = (inr a, st1) ∧ k a st1 = (inr b, st').
Proof.
  unfold bind. destruct (m st) as [[e|a] st1]; [discriminate|]. eauto.
Qed.

Lemma bind_run {A B} (m : M A) (k : A -> M B) st a st1 :
  m st = (inr a, st1) -> bind m k st = k a st1.
Proof. unfold bind. by intros ->. Qed.

Lemma bind_fail {A B} (m : M A) (k : A -> M B) st e st1 :
  m st = (inl e, st1) -> bind m k st = (inl e, st1).
Proof. unfold bind. by intros ->. Qed.

(** ** The fetch from the compendium packs *)

Lemma find_entry_Some (entries : list ABCFeatureEntryData) (i : string) :
  i ∈ entry_id <$> entries ->
  is_Some (List.find (fun e => bool_decide (entry_id e = i)) entries).
Proof.
  intros Hin. apply list_elem_of_fmap in Hin as (e & -> & He).
  destruct (List.find _ entries) eqn:Hf; [eauto|].
  apply list_elem_of_In in He.
  pose proof (find_none _ _ Hf _ He) as Hn. simpl in Hn.
  by rewrite bool_decide_eq_false in Hn.
Qed.

Lemma find_entry_elem (entries : list ABCFeatureEntryData) (i : string) e :
  List.find (fun e => bool_decide (entry_id e = i)) entries = Some e ->
  e ∈ entries ∧ entry_id e = i.
Proof.
  intros Hf. apply find_some in Hf as [Hin He].
  apply list_elem_of_In in Hin. by apply bool_decide_eq_true in He.
Qed.

Lemma fetched_elem entries pack d :
  d ∈ fetched entries pack ->
  ∃ p docs, pack = Some p ∧ packs game !! p = Some docs ∧ d ∈ docs ∧
            _id (_source d) ∈ entryIds entries pack.
Proof.
  unfold fetched. destruct pack as [p|]; simpl; [|by intros ?%elem_of_nil].
  destruct (packs game !! p) as [docs|] eqn:Hp; [|by intros ?%elem_of_nil].
  intros [Hid Hd]%list_elem_of_filter. eauto 10.
Qed.

Lemma fetched_find entries pack d :
  d ∈ fetched entries pack ->
  is_Some (List.find (fun e => bool_decide (entry_id e = _id (_source d))) entries).
Proof.
  intros (p & docs & -> & _ & _ & Hid)%fetched_elem.
  apply find_entry_Some. unfold entryIds in Hid.
  apply list_elem_of_fmap in Hid as (e & -> & [_ He]%list_elem_of_filter).
  by apply list_elem_of_fmap_2.
Qed.

Lemma overrideLevel_feat entries d st :
  type (_source d) = TyFeat ->
  overrideLevel entries d st = (inr (overridden entries d), st).
Proof.
  intros Hty. unfold overrideLevel, overridden, featType_getter, instanceof_FeatPF2e.
  rewrite bool_decide_eq_true_2 by done.
  destruct (List.find _ entries); [|done]. by case_bool_decide.
Qed.

Lemma overrideLevel_other entries d st :
  type (_source d) <> TyFeat ->
  is_Some (List.find (fun e => bool_decide (entry_id e = _id (_source d))) entries) ->
  overrideLevel entries d st = (inl TypeError, st).
Proof.
  intros Hty [e He]. unfold overrideLevel, featType_getter, instanceof_FeatPF2e.
  rewrite He. by rewrite bool_decide_eq_false_2.
Qed.

Lemma mapM_overrideLevel_ok entries l st :
  Forall (fun d => type (_source d) = TyFeat) l ->
  mapM (overrideLevel entries) l st = (inr (overridden entries <$> l), st).
Proof.
  induction 1 as [|d l Hd _ IH]; [done|]. simpl.
  rewrite (bind_run _ _ _ _ _ (overrideLevel_feat entries d st Hd)).
  by rewrite (bind_run _ _ _ _ _ IH).
Qed.

Lemma mapM_overrideLevel_fail entries l st :
  ¬ Forall (fun d => type (_source d) = TyFeat) l ->
  (∀ d, d ∈ l ->
     is_Some (List.find (fun e => bool_decide (entry_id e = _id (_source d))) entries)) ->
  mapM (overrideLevel entries) l st = (inl TypeError, st).
Proof.
  induction l as [|d l IH]; intros Hn Hfind; [by destruct Hn|]. simpl.
  destruct (decide (type (_source d) = TyFeat)) as [Hd|Hd].
  - rewrite (bind_run _ _ _ _ _ (overrideLevel_feat entries d st Hd)).
    rewrite (bind_fail _ _ _ _ _ (IH ltac:(by intros ?; apply Hn; constructor)
                                     ltac:(by intros ??; apply Hfind; right))).
    done.
  - by rewrite (bind_fail _ _ _ _ _ (overrideLevel_other entries d st Hd
                                       ltac:(by apply Hfind; left))).
Qed.

Lemma addQueries_nil st : addQueries [] st = st.
Proof. destruct st. unfold addQueries. simpl. by rewrite app_nil_r. Qed.

Lemma addQueries_app s1 s2 st : addQueries s2 (addQueries s1 st) = addQueries (s1 ++ s2) st.
Proof. unfold addQueries. simpl. by rewrite app_assoc. Qed.

Lemma fetchPack_ok entries feats pack st :
  packOK entries pack ->
  fetchPack entries feats pack st =
    (inr (feats ++ (overridden entries <$> fetched entries pack)),
     addQueries [queryOf entries pack] st).
Proof.
  intros [[docs Hdocs] Hfeat]. unfold fetchPack, packs_get, fetched in *.
  rewrite Hdocs in *. unfold getDocuments_ids.
  rewrite (bind_run _ _ _ docs st) by done.
  unfold bind at 1. unfold bind at 1. simpl.
  unfold bind. fold (entryIds entries pack).
  by rewrite mapM_overrideLevel_ok.
Qed.

Lemma fetchPack_fail entries feats pack st :
  ¬ packOK entries pack ->
  ∃ e sent, fetchPack entries feats pack st = (inl e, addQueries sent st) ∧
            (sent = [] ∨ sent = [queryOf entries pack]) ∧
            e <> InvalidReference.
Proof.
  intros Hn. unfold fetchPack, packs_get.
  destruct (pack ≫= _) as [docs|] eqn:Hdocs.
  - exists TypeError, [queryOf entries pack]. split; [|by split; [right|]].
    rewrite (bind_run _ _ _ docs st) by done.
    unfold getDocuments_ids. unfold bind at 1. unfold bind at 1. simpl.
    unfold bind. fold (entryIds entries pack).
    assert (fetched entries pack =
            filter (fun d => _id (_source d) ∈ entryIds entries pack) docs) as Hf
      by (unfold fetched; by rewrite Hdocs).
    rewrite <- Hf. rewrite mapM_overrideLevel_fail; [done| |].
    + intros HF. apply Hn. split; [|done]. rewrite Hdocs. eauto.
    + intros d Hd. by eapply fetched_find.
  - exists (PackNotFound pack), []. split; [|by split; [left|]].
    by rewrite addQueries_nil.
Qed.

Lemma forM_fetchPack_ok entries ps acc st :
  Forall (packOK entries) ps ->
  forM (fetchPack entries) ps acc st =
    (inr (acc ++ (pack ← ps ; overridden entries <$> fetched entries pack)),
     addQueries (queryOf entries <$> ps) st).
Proof.
  intros HF. revert acc st. induction HF as [|pack ps Hp _ IH]; intros acc st; simpl.
  - by rewrite app_nil_r, addQueries_nil.
  - rewrite (bind_run _ _ _ _ _ (fetchPack_ok entries acc pack st Hp)).
    rewrite IH. by rewrite <- app_assoc, addQueries_app.
Qed.

Lemma forM_fetchPack_fail entries ps acc st :
  ¬ Forall (packOK entries) ps ->
  ∃ e sent, forM (fetchPack entries) ps acc st = (inl e, addQueries sent st) ∧
            sent `prefix_of` (queryOf entries <$> ps) ∧
            e <> InvalidReference.
Proof.
  revert acc st. induction ps as [|pack ps IH]; intros acc st Hn; [by destruct Hn|].
  simpl. destruct (decide (packOK entries pack)) as [Hp|Hp].
  - rewrite (bind_run _ _ _ _ _ (fetchPack_ok entries acc pack st Hp)).
    destruct (IH (acc ++ (overridden entries <$> fetched entries pack))
                 (addQueries [queryOf entries pack] st)
                 ltac:(by intros ?; apply Hn; constructor)) as (e & sent & -> & Hpre & He).
    exists e, (queryOf entries pack :: sent). rewrite addQueries_app. split; [done|].
    split; [by apply prefix_cons|done].
  - destruct (fetchPack_fail entries acc pack st Hp) as (e & sent & Hrun & Hsent & He).
    exists e, sent. rewrite (bind_fail _ _ _ _ _ Hrun). split; [done|]. split; [|done].
    destruct Hsent as [->| ->]; [apply prefix_nil|].
    apply prefix_cons, prefix_nil.
Qed.

Lemma getFromCompendium_ok entries st :
  compendiumOK entries ->
  getFromCompendium entries st =
    (inr (compendiumFeats entries), addQueries (expectedQueries entries) st).
Proof.
  intros HF. unfold getFromCompendium. by rewrite forM_fetchPack_ok.
Qed.

Lemma getFromCompendium_fail entries st :
  ¬ compendiumOK entries ->
  ∃ e sent, getFromCompendium entries st = (inl e, addQueries sent st) ∧
            sent `prefix_of` expectedQueries entries ∧
            e <> InvalidReference.
Proof. intros Hn. by apply forM_fetchPack_fail. Qed.

(** ** The resolver *)

Lemma addDrawn_0 st : addDrawn 0 st = st.
Proof. destruct st. unfold addDrawn. simpl. by rewrite Nat.add_0_r. Qed.

Lemma addDrawn_add n m st : addDrawn m (addDrawn n st) = addDrawn (n + m) st.
Proof. unfold addDrawn. simpl. by rewrite Nat.add_assoc. Qed.

Lemma stamp_cons n s l : stamp n (s :: l) = set_id (idSource n) s :: stamp (S n) l.
Proof.
  unfold stamp. simpl. rewrite Nat.add_0_r. f_equal.
  apply imap_ext. intros i x _. simpl. f_equal. f_equal. lia.
Qed.

Lemma stamp_app n l1 l2 :
  stamp n (l1 ++ l2) = stamp n l1 ++ stamp (n + length l1) l2.
Proof.
  unfold stamp. rewrite imap_app. f_equal.
  apply imap_ext. intros i x _. simpl. f_equal. f_equal. lia.
Qed.

Lemma elem_of_stamp n l f :
  f ∈ stamp n l ↔ ∃ i s, l !! i = Some s ∧ f = set_id (idSource (n + i)) s.
Proof.
  unfold stamp. rewrite elem_of_lookup_imap. split.
  - intros (i & s & -> & Hs). eauto.
  - intros (i & s & Hs & ->). eauto.
Qed.

Lemma overridden_type entries d : type (_source (overridden entries d)) = type (_source d).
Proof.
  unfold overridden. destruct (List.find _ entries); [|done]. by case_bool_decide.
Qed.

Lemma overridden_featType entries d :
  featType (_source (overridden entries d)) = featType (_source d).
Proof.
  unfold overridden. destruct (List.find _ entries); [|done]. by case_bool_decide.
Qed.

Lemma overridden_id entries d : _id (_source (overridden entries d)) = _id (_source d).
Proof.
  unfold overridden. destruct (List.find _ entries); [|done]. by case_bool_decide.
Qed.

Lemma compendiumFeats_elem entries f :
  f ∈ compendiumFeats entries ↔
  ∃ pack d, pack ∈ js_Set (entry_pack <$> entries) ∧ d ∈ fetched entries pack ∧
            f = overridden entries d.
Proof.
  unfold compendiumFeats. rewrite list_elem_of_bind. split.
  - intros (pack & (d & -> & Hd)%list_elem_of_fmap & Hp). eauto.
  - intros (pack & d & Hp & Hd & ->). exists pack. split; [|done].
    by apply list_elem_of_fmap_2.
Qed.

Lemma compendiumFeats_feats entries :
  compendiumOK entries ->
  Forall (fun d => type (_source d) = TyFeat) (compendiumFeats entries).
Proof.
  intros HF. apply Forall_forall. intros f (pack & d & Hp & Hd & ->)%compendiumFeats_elem.
  rewrite overridden_type.
  unfold compendiumOK in HF. rewrite Forall_forall in HF.
  destruct (HF pack Hp) as [_ Hfe]. rewrite Forall_forall in Hfe. by apply Hfe.
Qed.

Lemma mapM_fromCompendiumFeat_ok locationId l st :
  Forall (fun d => type (_source d) = TyFeat) l ->
  mapM (fromCompendiumFeat locationId) l st =
    (inr (stamp (drawn st) ((fun feat => set_location (Some locationId) (toObject feat)) <$> l)),
     addDrawn (length l) st).
Proof.
  intros HF. revert st. induction HF as [|d l Hd _ IH]; intros st.
  - simpl. by rewrite addDrawn_0.
  - simpl. unfold fromCompendiumFeat at 1, instanceof_FeatPF2e.
    rewrite bool_decide_eq_true_2 by done.
    unfold bind at 1. unfold bind at 1. simpl.
    rewrite (bind_run _ _ _ _ _ (IH _)). simpl.
    rewrite stamp_cons. unfold ret. f_equal.
    unfold addDrawn. simpl. f_equal. lia.
Qed.

Lemma fromGameEntry_ok entry st :
  gameEntryOK entry ->
  ∃ item, game_items game !! entry_id entry = Some item ∧
          fromGameEntry entry st =
            (inr (set_id (idSource (drawn st)) (toObject item)), addDrawn 1 st).
Proof.
  intros (item & Hitem & Hty). exists item. split; [done|].
  unfold fromGameEntry, instanceof_FeatPF2e. rewrite Hitem.
  rewrite bool_decide_eq_true_2 by done.
  unfold bind, randomID, ret, addDrawn. simpl. do 2 f_equal. lia.
Qed.

Lemma fromGameEntry_fail entry st :
  ¬ gameEntryOK entry -> fromGameEntry entry st = (inl InvalidReference, st).
Proof.
  intros Hn. unfold fromGameEntry, instanceof_FeatPF2e.
  destruct (game_items game !! entry_id entry) as [item|] eqn:Hitem; [|done].
  case_bool_decide; [|done]. destruct Hn. unfold gameEntryOK. eauto.
Qed.

Lemma mapM_fromGameEntry_ok l st :
  Forall gameEntryOK l ->
  mapM fromGameEntry l st =
    (inr (stamp (drawn st) (gameSources l)), addDrawn (length (gameSources l)) st).
Proof.
  intros HF. revert st. induction HF as [|e l He _ IH]; intros st.
  - simpl. by rewrite addDrawn_0.
  - simpl. destruct (fromGameEntry_ok e st He) as (item & Hitem & Hrun).
    rewrite (bind_run _ _ _ _ _ Hrun). rewrite (bind_run _ _ _ _ _ (IH _)).
    unfold gameSources. simpl. rewrite Hitem. simpl. rewrite stamp_cons.
    rewrite addDrawn_add. unfold ret. by replace (drawn st + 1)%nat with (S (drawn st)) by lia.
Qed.

Lemma mapM_fromGameEntry_fail l st :
  ¬ Forall gameEntryOK l ->
  ∃ n, mapM fromGameEntry l st = (inl InvalidReference, addDrawn n st).
Proof.
  revert st. induction l as [|e l IH]; intros st Hn; [by destruct Hn|]. simpl.
  destruct (decide (gameEntryOK e)) as [He|He].
  - destruct (fromGameEntry_ok e st He) as (item & Hitem & Hrun).
    rewrite (bind_run _ _ _ _ _ Hrun).
    destruct (IH (addDrawn 1 st) ltac:(by intros ?; apply Hn; constructor)) as [n Hl].
    rewrite (bind_fail _ _ _ _ _ Hl). exists (1 + n)%nat. by rewrite addDrawn_add.
  - rewrite (bind_fail _ _ _ _ _ (fromGameEntry_fail e st He)).
    exists 0%nat. by rewrite addDrawn_0.
Qed.

Lemma getFeatures_ok entries locationId st :
  resolvable entries ->
  getFeatures entries locationId st =
    (inr (stamp (drawn st) (resolvedSources entries locationId)),
     addDrawn (length (resolvedSources entries locationId))
       (addQueries (expectedQueries (packEntries entries)) st)).
Proof.
  intros [Hc Hg]. unfold getFeatures, resolvedSources.
  fold (packEntries entries). fold (gameEntries entries).
  fold (gameSources (gameEntries entries)).
  case_bool_decide as Hnil.
  { subst entries. simpl. by rewrite addQueries_nil, addDrawn_0. }
  case_bool_decide as Hpnil.
  - rewrite Hpnil. rewrite (bind_run _ _ _ [] st) by done.
    rewrite (bind_run _ _ _ _ _ (mapM_fromGameEntry_ok _ _ Hg)).
    simpl. unfold expectedQueries. simpl. by rewrite addQueries_nil.
  - rewrite (bind_run (bind _ _) _ _ _ _
               (eq_trans (bind_run _ _ _ _ _ (getFromCompendium_ok _ st Hc))
                         (mapM_fromCompendiumFeat_ok locationId _ _
                            (compendiumFeats_feats _ Hc)))).
    rewrite (bind_run _ _ _ _ _ (mapM_fromGameEntry_ok _ _ Hg)).
    unfold ret. simpl. rewrite stamp_app, addDrawn_add, length_app. by rewrite !length_fmap.
Qed.

Lemma getFeatures_fail entries locationId st :
  ¬ resolvable entries ->
  ∃ e n sent,
    getFeatures entries locationId st = (inl e, addDrawn n (addQueries sent st)) ∧
    sent `prefix_of` expectedQueries (packEntries entries) ∧
    (compendiumOK (packEntries entries) -> e = InvalidReference) ∧
    (¬ compendiumOK (packEntries entries) -> e <> InvalidReference).
Proof.
  intros Hn. unfold getFeatures.
  fold (packEntries entries). fold (gameEntries entries).
  case_bool_decide as Hnil.
  { destruct Hn. subst entries. split; constructor. }
  case_bool_decide as Hpnil.
  - assert (¬ Forall gameEntryOK (gameEntries entries)) as Hg.
    { intros Hg. apply Hn. split; [|done]. rewrite Hpnil. constructor. }
    rewrite (bind_run _ _ _ [] st) by done.
    destruct (mapM_fromGameEntry_fail _ st Hg) as [n Hrun].
    rewrite (bind_fail _ _ _ _ _ Hrun).
    exists InvalidReference, n, []. rewrite addQueries_nil.
    split; [done|]. split; [apply prefix_nil|]. split; [done|].
    intros Hc. destruct Hc. rewrite Hpnil. constructor.
  - destruct (decide (compendiumOK (packEntries entries))) as [Hc|Hc].
    + assert (¬ Forall gameEntryOK (gameEntries entries)) as Hg
        by (intros Hg; by apply Hn).
      rewrite (bind_run (bind _ _) _ _ _ _
                 (eq_trans (bind_run _ _ _ _ _ (getFromCompendium_ok _ st Hc))
                           (mapM_fromCompendiumFeat_ok locationId _ _
                              (compendiumFeats_feats _ Hc)))).
      destruct (mapM_fromGameEntry_fail _
                  (addDrawn (length (compendiumFeats (packEntries entries)))
                     (addQueries (expectedQueries (packEntries entries)) st)) Hg)
        as [n Hrun].
      rewrite (bind_fail _ _ _ _ _ Hrun). rewrite addDrawn_add.
      eexists InvalidReference, _, _. split; [done|]. split; [done|]. by split.
    + destruct (getFromCompendium_fail _ st Hc) as (e & sent & Hrun & Hpre & He).
      rewrite (bind_fail (bind _ _) _ _ _ _ (bind_fail _ _ _ _ _ Hrun)).
      exists e, 0%nat, sent. rewrite addDrawn_0. split; [done|]. split; [done|].
      by split.
Qed.

(** A record of the wrong shape ends the resolution, and nothing is
    returned: from the world collection with the error of [getFeatures],
    from a pack with another one. *)
Lemma getFeatures_wrong_shape entries locationId st :
  ¬ resolvable entries ->
  ∃ e, (getFeatures entries locationId st).1 = inl e ∧
       actor (getFeatures entries locationId st).2 = actor st ∧
       (compendiumOK (packEntries entries) -> e = InvalidReference) ∧
       (¬ compendiumOK (packEntries entries) -> e <> InvalidReference).
Proof.
  intros Hn.
  destruct (getFeatures_fail entries locationId st Hn) as (e & n & sent & -> & _ & H1 & H2).
  exists e. done.
Qed.

Lemma keepsActor_getFeatures entries locationId :
  keepsActor (getFeatures entries locationId).
Proof.
  intros st. destruct (decide (resolvable entries)) as [H|H].
  - by rewrite getFeatures_ok.
  - destruct (getFeatures_fail entries locationId st H) as (e & n & sent & -> & _). done.
Qed.

(** ** The level window *)

Lemma window_empty classSource minLevel actorLevel :
  minLevel >= actorLevel -> window classSource minLevel actorLevel = [].
Proof.
  intros Hge. unfold window. induction (Object_values (items classSource)) as [|e l IH]; [done|].
  rewrite filter_cons_False; [done|]. unfold inWindow. lia.
Qed.

Lemma getClassFeaturesForLevel_unfold classSource minLevel actorLevel st :
  getClassFeaturesForLevel classSource minLevel actorLevel st =
  getFeatures (window classSource minLevel actorLevel) (_id classSource) st.
Proof.
  unfold getClassFeaturesForLevel. case_bool_decide as Hge; [|done].
  rewrite window_empty by done. done.
Qed.

Lemma keepsActor_getClassFeaturesForLevel classSource minLevel actorLevel :
  keepsActor (getClassFeaturesForLevel classSource minLevel actorLevel).
Proof.
  intros st. rewrite getClassFeaturesForLevel_unfold. apply keepsActor_getFeatures.
Qed.

(** ** One query per pack *)

Lemma elem_of_js_Set {A} `{EqDecision A} (l : list A) x : x ∈ js_Set l ↔ x ∈ l.
Proof.
  induction l as [|y l IH]; simpl; [done|].
  rewrite !elem_of_cons, list_elem_of_filter, IH. split.
  - intros [->|[_ Hx]]; [by left|by right].
  - intros [->|Hx]; [by left|].
    destruct (decide (x = y)) as [->|Hne]; [by left|by right].
Qed.

Lemma NoDup_js_Set {A} `{EqDecision A} (l : list A) : NoDup (js_Set l).
Proof.
  induction l as [|y l IH]; simpl; [constructor|].
  constructor; [|by apply NoDup_filter].
  rewrite list_elem_of_filter. by intros [? _].
Qed.

Lemma packEntries_truthy entries pack :
  pack ∈ js_Set (entry_pack <$> packEntries entries) ->
  ∃ p, pack = Some p ∧ p <> EmptyString.
Proof.
  rewrite elem_of_js_Set. intros (e & -> & He)%list_elem_of_fmap.
  apply list_elem_of_filter in He as [Ht _].
  destruct (entry_pack e) as [p|]; [|done]. exists p. split; [done|].
  intros ->. done.
Qed.

Lemma NoDup_expectedQueries entries :
  NoDup (query_pack <$> expectedQueries (packEntries entries)).
Proof.
  unfold expectedQueries. rewrite <- list_fmap_compose.
  apply NoDup_fmap_2_strong; [|apply NoDup_js_Set].
  intros x y (p & -> & _)%packEntries_truthy (q & -> & _)%packEntries_truthy. simpl.
  by intros ->.
Qed.

Lemma expectedQueries_packs entries :
  Some <$> (query_pack <$> expectedQueries (packEntries entries)) =
  js_Set (entry_pack <$> packEntries entries).
Proof.
  unfold expectedQueries. rewrite <- !list_fmap_compose.
  rewrite <- (list_fmap_id (js_Set _)) at 2.
  apply list_fmap_ext. intros i x Hx%list_elem_of_lookup_2.
  by destruct (packEntries_truthy _ _ Hx) as (p & -> & _).
Qed.

Lemma getFeatures_run entries locationId st :
  ∃ n sent,
    (getFeatures entries locationId st).2 = addDrawn n (addQueries sent st) ∧
    sent `prefix_of` expectedQueries (packEntries entries) ∧
    match (getFeatures entries locationId st).1 with
    | inr feats => sent = expectedQueries (packEntries entries) ∧
                   feats = stamp (drawn st) (resolvedSources entries locationId)
    | inl _ => True
    end.
Proof.
  destruct (decide (resolvable entries)) as [H|H].
  - rewrite getFeatures_ok by done. simpl. eauto 10.
  - destruct (getFeatures_fail entries locationId st H) as (e & n & sent & -> & Hpre & _).
    simpl. eauto 10.
Qed.


(** ** The level of a class feature *)

Lemma getFromCompendium_inr entries st feats st' :
  getFromCompendium entries st = (inr feats, st') ->
  compendiumOK entries ∧ feats = compendiumFeats entries ∧
  st' = addQueries (expectedQueries entries) st.
Proof.
  intros Hrun. destruct (decide (compendiumOK entries)) as [H|H].
  - rewrite getFromCompendium_ok in Hrun by done. by simplify_eq.
  - destruct (getFromCompendium_fail entries st H) as (e & sent & Hf & _). congruence.
Qed.

Lemma featType_getter_Some d ft :
  featType_getter d = Some ft ↔ type (_source d) = TyFeat ∧ featType (_source d) = ft.
Proof.
  unfold featType_getter, instanceof_FeatPF2e. case_bool_decide; split.
  - by intros [= <-].
  - by intros [_ ->].
  - done.
  - by intros [? _].
Qed.

Lemma overridden_classfeature entries d entry :
  List.find (fun e => bool_decide (entry_id e = _id (_source d))) entries = Some entry ->
  featType (_source d) = "classfeature" ->
  overridden entries d =
    mkItem (set_level (entry_level entry) (_source d))
           (derive (set_level (entry_level entry) (_source d))).
Proof.
  intros Hfind Hft. unfold overridden. rewrite Hfind.
  by rewrite bool_decide_eq_true_2.
Qed.

(** C5: a fetched record tagged as a class feature takes the level of the
    entry of its identity, and the data derived from the record are
    computed after that, from the overwritten source.  Every class feature
    record the pack returned for the entries comes back with the entry's
    level in its source and with its derived data recomputed from that
    source; and no class feature record among the results carries derived
    data of any other level. *)
Theorem getFromCompendium_level_override entries st feats st' :
  getFromCompendium entries st = (inr feats, st') ->
  (∀ pack d entry,
     pack ∈ entry_pack <$> entries ->
     d ∈ fetched entries pack ->
     featType_getter d = Some "classfeature" ->
     List.find (fun e => bool_decide (entry_id e = _id (_source d))) entries = Some entry ->
     ∃ f, f ∈ feats ∧
          _source f = set_level (entry_level entry) (_source d) ∧
          level (toObject f) = entry_level entry ∧
          data f = derive (_source f)) ∧
  (∀ f,
     f ∈ feats ->
     featType_getter f = Some "classfeature" ->
     ∃ entry,
       List.find (fun e => bool_decide (entry_id e = _id (_source f))) entries = Some entry ∧
       level (toObject f) = entry_level entry ∧
       data f = derive (_source f)).
Proof.
  intros (Hok & -> & _)%getFromCompendium_inr. split.
  - intros pack d entry Hpack Hd [Hty Hft]%featType_getter_Some Hfind.
    exists (overridden entries d). split.
    + apply compendiumFeats_elem. exists pack, d. by rewrite elem_of_js_Set.
    + by rewrite (overridden_classfeature _ _ _ Hfind Hft).
  - intros f (pack & d & Hpack & Hd & ->)%compendiumFeats_elem
           [Hty Hft]%featType_getter_Some.
    rewrite overridden_featType in Hft. rewrite overridden_id.
    destruct (fetched_find _ _ _ Hd) as [entry Hfind].
    exists entry. split; [done|].
    by rewrite (overridden_classfeature _ _ _ Hfind Hft).
Qed.

(** ** The order of the class features *)

Lemma String_leb_trans a b c :
  String.leb a b = true -> String.leb b c = true -> String.leb a c = true.
Proof.
  unfold String.leb. revert b c.
  induction a as [|x a IH]; intros [|y b] [|z c]; simpl; try done.
  unfold Ascii.compare.
  destruct (N.compare_spec (N_of_ascii x) (N_of_ascii y)) as [Hxy|Hxy|Hxy];
    destruct (N.compare_spec (N_of_ascii y) (N_of_ascii z)) as [Hyz|Hyz|Hyz];
    destruct (N.compare_spec (N_of_ascii x) (N_of_ascii z)) as [Hxz|Hxz|Hxz];
    try done; try lia.
  all: apply IH.
Qed.

Lemma str_gt_false a b : str_gt a b = false -> String.leb a b = true.
Proof. unfold str_gt, String.leb. by destruct (String.compare a b). Qed.

Lemma str_gt_true a b : str_gt a b = true -> String.leb b a = true.
Proof.
  unfold str_gt, String.leb. rewrite (String.compare_antisym a b).
  by destruct (String.compare b a).
Qed.

Lemma compareFeatures_neg a b : compareFeatures a b < 0 -> featureLe a b.
Proof.
  unfold compareFeatures, featureLe. repeat case_bool_decide; try lia.
  destruct (str_gt (name a) (name b)) eqn:Hgt; [lia|].
  intros _. right. split; [done|]. by apply str_gt_false.
Qed.

Lemma compareFeatures_nonneg a b : ¬ compareFeatures a b < 0 -> featureLe b a.
Proof.
  unfold compareFeatures, featureLe. repeat case_bool_decide; try lia.
  destruct (str_gt (name a) (name b)) eqn:Hgt; [|lia].
  intros _. right. split; [done|]. by apply str_gt_true.
Qed.

Lemma featureLe_trans : Transitive featureLe.
Proof.
  intros a b c [Hab|[Hab Hn1]] [Hbc|[Hbc Hn2]]; unfold featureLe.
  - left. lia.
  - left. lia.
  - left. lia.
  - right. split; [lia|]. by eapply String_leb_trans.
Qed.

Lemma sort_insert_Permutation {A} (comparefn : A -> A -> Z) x l :
  sort_insert comparefn x l ≡ₚ x :: l.
Proof.
  induction l as [|y l IH]; simpl; [done|].
  destruct (comparefn x y <? 0); [done|].
  rewrite IH. apply Permutation_swap.
Qed.

Lemma sort_insert_sorted x l :
  StronglySorted featureLe l -> StronglySorted featureLe (sort_insert compareFeatures x l).
Proof.
  induction 1 as [|y l Hs IH Hy]; simpl.
  - repeat constructor.
  - destruct (Z.ltb_spec (compareFeatures x y) 0) as [Hlt|Hge].
    + apply compareFeatures_neg in Hlt.
      constructor; [by constructor|]. constructor; [done|].
      eapply Forall_impl; [exact Hy|]. intros z Hz. by eapply featureLe_trans.
    + constructor; [done|].
      rewrite (sort_insert_Permutation compareFeatures x l).
      constructor; [|done]. apply compareFeatures_nonneg. lia.
Qed.

Lemma Array_sort_Permutation {A} (comparefn : A -> A -> Z) l :
  Array_sort comparefn l ≡ₚ l.
Proof.
  unfold Array_sort.
  assert (∀ acc, fold_left (fun acc x => sort_insert comparefn x acc) l acc ≡ₚ acc ++ l) as H.
  { induction l as [|x l IH]; intros acc; simpl; [by rewrite app_nil_r|].
    rewrite IH, sort_insert_Permutation. simpl. apply Permutation_middle. }
  apply H.
Qed.

Lemma Array_sort_sorted l : StronglySorted featureLe (Array_sort compareFeatures l).
Proof.
  unfold Array_sort.
  assert (∀ acc, StronglySorted featureLe acc ->
                 StronglySorted featureLe
                   (fold_left (fun acc x => sort_insert compareFeatures x acc) l acc)) as H.
  { induction l as [|x l IH]; intros acc Hacc; simpl; [done|].
    apply IH. by apply sort_insert_sorted. }
  apply H. constructor.
Qed.

(** ** Attaching a class *)

Lemma delete_item_run ty st :
  delete_item (itemOfType ty (actor st)) st = (inr tt, setActor (withoutItem ty (actor st)) st).
Proof.
  unfold withoutItem, setActor. destruct (itemOfType ty (actor st)); simpl; [done|].
  by destruct st.
Qed.

Lemma withoutItem_level ty a : actor_level (withoutItem ty a) = actor_level a.
Proof. unfold withoutItem. by destruct (itemOfType ty a). Qed.

Lemma createEmbeddedDocuments_run sources st :
  createEmbeddedDocuments sources st = (inr sources, embed sources st).
Proof. done. Qed.

Lemma addABCItem_class source options st :
  type source = TyClass ->
  addABCItem source options st =
    match getClassFeaturesForLevel (classItem source st) 0 (actor_level (actor st))
            (classStart st) with
    | (inr resolved, st2) =>
        (inr (Array_sort compareFeatures resolved ++ [classItem source st]),
         embed (Array_sort compareFeatures resolved ++ [classItem source st]) st2)
    | (inl e, st2) => (inl e, st2)
    end.
Proof.
  intros Hty. unfold addABCItem. rewrite Hty.
  unfold bind at 1. simpl. unfold bind at 1. rewrite delete_item_run.
  unfold bind at 1. simpl. unfold bind at 1. simpl.
  rewrite withoutItem_level. unfold bind.
  replace (mkSt (S (drawn st)) (queries st) (withoutItem TyClass (actor st)))
    with (classStart st)
    by (unfold classStart, addDrawn, setActor; simpl; f_equal; lia).
  fold (classItem source st).
  by destruct (getClassFeaturesForLevel _ _ _ _) as [[e|resolved] st2].
Qed.

Lemma addABCItem_class_inr source options st created st' :
  type source = TyClass ->
  addABCItem source options st = (inr created, st') ->
  let entries := window (classItem source st) 0 (actor_level (actor st)) in
  let resolved := stamp (S (drawn st)) (resolvedSources entries (_id (classItem source st))) in
  resolvable entries ∧
  (getClassFeaturesForLevel (classItem source st) 0 (actor_level (actor st))
     (classStart st)).1 = inr resolved ∧
  created = Array_sort compareFeatures resolved ++ [classItem source st] ∧
  actor_items (actor st') = actor_items (withoutItem TyClass (actor st)) ++ created.
Proof.
  intros Hty Hrun. rewrite addABCItem_class in Hrun by done.
  rewrite getClassFeaturesForLevel_unfold in *.
  destruct (decide (resolvable (window (classItem source st) 0 (actor_level (actor st)))))
    as [Hok|Hno].
  - assert (drawn (classStart st) = S (drawn st)) as Hd
      by (unfold classStart; simpl; lia).
    rewrite getFeatures_ok in * by done. rewrite Hd in *. simplify_eq.
    split_and!; done.
  - destruct (getFeatures_fail _ (_id (classItem source st)) (classStart st) Hno)
      as (e & n & sent & Hf & _).
    rewrite Hf in Hrun. done.
Qed.

(** ** What is resolved *)

Lemma truthy_Some p : truthy (Some p) ↔ p <> EmptyString.
Proof.
  simpl. destruct (String.eqb_spec p EmptyString) as [->|Hne]; simpl.
  - split; [done|]. intros Hne. by destruct Hne.
  - by split.
Qed.

Lemma resolvedSources_elem entries locationId s :
  s ∈ resolvedSources entries locationId ↔
  ∃ entry, entry ∈ entries ∧ resolution entries locationId entry s.
Proof.
  unfold resolvedSources. rewrite elem_of_app. split.
  - intros [Hs|Hs].
    + apply list_elem_of_fmap in Hs as (f & -> & Hf).
      apply compendiumFeats_elem in Hf as (pack & d & Hpack & Hd & ->).
      apply fetched_elem in Hd as (p & docs & -> & Hdocs & Hd & Hid).
      unfold entryIds in Hid.
      apply list_elem_of_fmap in Hid as (entry & Hid & [Hp He]%list_elem_of_filter).
      apply list_elem_of_filter in He as [Ht He].
      exists entry. split; [done|]. rewrite Hp in Ht. apply truthy_Some in Ht.
      by eapply resolution_pack.
    + apply list_elem_of_omap in Hs as (entry & [Ht He]%list_elem_of_filter & Hs).
      destruct (game_items game !! entry_id entry) as [item|] eqn:Hitem; [|done].
      simpl in Hs. injection Hs as <-. exists entry. split; [done|].
      by apply resolution_game.
  - intros (entry & He & Hres). destruct Hres as [entry p docs d Hp Hne Hdocs Hd Hid|entry item Ht Hitem].
    + left. apply list_elem_of_fmap.
      exists (overridden (packEntries entries) d). split; [done|].
      assert (entry ∈ packEntries entries) as Hpe.
      { apply list_elem_of_filter. split; [|done]. rewrite Hp. by apply truthy_Some. }
      apply compendiumFeats_elem. exists (Some p), d. split_and!; [| |done].
      * apply elem_of_js_Set. rewrite <- Hp. by apply list_elem_of_fmap_2.
      * unfold fetched. simpl. rewrite Hdocs. apply list_elem_of_filter. split; [|done].
        rewrite Hid. unfold entryIds. apply list_elem_of_fmap_2.
        by apply list_elem_of_filter.
    + right. apply list_elem_of_omap. exists entry. split.
      * by apply list_elem_of_filter.
      * by rewrite Hitem.
Qed.

(** A class feature resolved from a pack has the level of an entry of its
    identity. *)
Lemma resolution_pack_level entries locationId entry s :
  entry ∈ entries ->
  resolution entries locationId entry s ->
  truthy (entry_pack entry) ->
  featType s = "classfeature" ->
  ∃ entry', entry' ∈ entries ∧ entry_id entry' = entry_id entry ∧
            level s = entry_level entry'.
Proof.
  intros He Hres Ht Hft.
  destruct Hres as [entry p docs d Hp Hne Hdocs Hd Hid|entry item Hnt Hitem]; [|done].
  simpl in Hft. rewrite overridden_featType in Hft.
  assert (entry ∈ packEntries entries) as Hpe by (by apply list_elem_of_filter).
  destruct (find_entry_Some (packEntries entries) (_id (_source d))) as [entry' Hfind].
  { rewrite Hid. by apply list_elem_of_fmap_2. }
  rewrite (overridden_classfeature _ _ _ Hfind Hft). simpl.
  apply find_entry_elem in Hfind as [[_ Hin]%list_elem_of_filter Hid'].
  exists entry'. split; [done|]. split; [congruence|done].
Qed.

Lemma window_classItem source st minLevel actorLevel :
  window (classItem source st) minLevel actorLevel = window source minLevel actorLevel.
Proof. done. Qed.

Lemma elem_of_window classSource minLevel actorLevel entry :
  entry ∈ window classSource minLevel actorLevel ↔
  entry ∈ Object_values (items classSource) ∧
  minLevel < entry_level entry <= actorLevel.
Proof.
  unfold window. rewrite list_elem_of_filter. unfold inWindow. split.
  - intros [[H1 H2] H3]. split; [done|lia].
  - intros [H3 [H1 H2]]. split; [|done]. split; lia.
Qed.

(** C2 (amended): the features the class branch attaches come in the order
    of level ascending, ties broken by name ascending, followed by the
    class item itself; entries of levels 3, 1, 1 for features named Zeta,
    Beta and Alpha attach in the order Alpha(1), Beta(1), Zeta(3). *)
Theorem addABCItem_class_sorted source options st created st' :
  type source = TyClass ->
  addABCItem source options st = (inr created, st') ->
  (∃ resolved features,
     (getClassFeaturesForLevel (classItem source st) 0 (actor_level (actor st))
        (classStart st)).1 = inr resolved ∧
     created = features ++ [classItem source st] ∧
     features ≡ₚ resolved ∧
     StronglySorted featureLe features) ∧
  (fun f => (name f, level f))
    <$> Array_sort compareFeatures
          [Demo.attachedFeature "a" "Zeta" 3 None; Demo.attachedFeature "b" "Beta" 1 None;
           Demo.attachedFeature "c" "Alpha" 1 None]
  = [("Alpha", 1); ("Beta", 1); ("Zeta", 3)].
Proof.
  intros Hty Hrun. split; [|done].
  destruct (addABCItem_class_inr _ _ _ _ _ Hty Hrun) as (_ & Hres & -> & _).
  eexists _, _. split; [exact Hres|]. split; [done|]. split.
  - apply Array_sort_Permutation.
  - apply Array_sort_sorted.
Qed.

(** The identities of a stamped batch are the consecutive draws of the
    generator, from the first one on. *)
Lemma stamp_ids n sources :
  _id <$> stamp n sources = idSource <$> seq n (length sources).
Proof.
  unfold stamp. rewrite fmap_imap.
  rewrite (imap_ext _ (fun i _ => idSource (n + i))) by done.
  by rewrite (imap_seq sources idSource n).
Qed.

(** C1 (amended): after the class branch has run for a character of level
    N, the features attached are the resolutions of exactly the entries of
    the class whose level lies in (0, N], each under an identity that the
    generator drew during this call, after the one of the class item and
    one draw for each feature, and every attached class feature that was
    resolved from a pack has a level in (0, N]: the level of an entry of
    its identity. *)
Theorem addABCItem_class_level_window source options st created st' :
  type source = TyClass ->
  addABCItem source options st = (inr created, st') ->
  let N := actor_level (actor st) in
  let entries := window source 0 N in
  let locationId := _id (classItem source st) in
  ∃ features,
    created = features ++ [classItem source st] ∧
    drawn st' = (S (drawn st) + length features)%nat ∧
    _id <$> features ≡ₚ idSource <$> seq (S (drawn st)) (length features) ∧
    (∀ f, f ∈ features ->
       ∃ entry f0 k,
         entry ∈ Object_values (items source) ∧ 0 < entry_level entry <= N ∧
         resolution entries locationId entry f0 ∧
         (drawn st < k < drawn st')%nat ∧ f = set_id (idSource k) f0 ∧
         (truthy (entry_pack entry) -> featType f = "classfeature" -> 0 < level f <= N)) ∧
    (∀ entry f0,
       entry ∈ Object_values (items source) -> 0 < entry_level entry <= N ->
       resolution entries locationId entry f0 ->
       ∃ f k, f ∈ features ∧ (drawn st < k < drawn st')%nat ∧
              f = set_id (idSource k) f0).
Proof.
  intros Hty Hrun N entries locationId.
  rewrite addABCItem_class in Hrun by done.
  rewrite getClassFeaturesForLevel_unfold in Hrun.
  rewrite window_classItem in Hrun. fold N entries locationId in Hrun.
  assert (drawn (classStart st) = S (drawn st)) as Hd
    by (unfold classStart; simpl; lia).
  destruct (decide (resolvable entries)) as [Hok|Hno]; cycle 1.
  { destruct (getFeatures_fail _ locationId (classStart st) Hno)
      as (e & n & sent & Hf & _).
    rewrite Hf in Hrun. done. }
  rewrite getFeatures_ok in Hrun by done. rewrite Hd in Hrun.
  injection Hrun as <- <-.
  set (sources := resolvedSources entries locationId).
  set (features := Array_sort compareFeatures (stamp (S (drawn st)) sources)).
  assert (length features = length sources) as Hlen.
  { unfold features. rewrite (Permutation_length (Array_sort_Permutation _ _)).
    unfold stamp. by rewrite length_imap. }
  assert (drawn (embed (features ++ [classItem source st])
                   (addDrawn (length sources)
                      (addQueries (expectedQueries (packEntries entries)) (classStart st))))
          = (S (drawn st) + length features)%nat) as Hdrawn.
  { unfold embed, classStart; simpl. lia. }
  exists features. split; [done|]. split; [done|]. split.
  { unfold features. rewrite Array_sort_Permutation, stamp_ids.
    unfold stamp. by rewrite length_imap. }
  rewrite Hdrawn, Hlen. split.
  - intros f Hf. unfold features in Hf. rewrite Array_sort_Permutation in Hf.
    apply elem_of_stamp in Hf as (i & s & Hi & ->).
    pose proof (lookup_lt_Some _ _ _ Hi) as Hlt.
    apply list_elem_of_lookup_2 in Hi as Hs.
    apply resolvedSources_elem in Hs as (entry & He & Hres).
    pose proof He as [Hin Hlv]%elem_of_window.
    exists entry, s, (S (drawn st) + i)%nat.
    split; [done|]. split; [done|]. split; [done|]. split; [lia|]. split; [done|].
    intros Ht Hft.
    destruct (resolution_pack_level _ _ _ _ He Hres Ht Hft) as (entry' & He' & _ & Hl).
    apply elem_of_window in He' as [_ Hlv']. simpl. lia.
  - intros entry f0 Hin Hlv Hres.
    assert (f0 ∈ sources) as Hf0.
    { apply resolvedSources_elem. exists entry. split; [|done]. by apply elem_of_window. }
    apply list_elem_of_lookup in Hf0 as [i Hi].
    pose proof (lookup_lt_Some _ _ _ Hi) as Hlt.
    exists (set_id (idSource (S (drawn st) + i)) f0), (S (drawn st) + i)%nat.
    split; [|split; [lia|done]].
    unfold features. rewrite Array_sort_Permutation. apply elem_of_stamp. eauto.
Qed.

(** ** Synchronising the class features with the level *)

Lemma ensure_noClass newLevel st :
  itemOfType TyClass (actor st) = None ->
  ensureClassFeaturesForLevel newLevel st = (inr tt, st).
Proof.
  intros Hc. unfold ensureClassFeaturesForLevel, bind, get_actor. by rewrite Hc.
Qed.

Lemma ensure_same st :
  ensureClassFeaturesForLevel (actor_level (actor st)) st = (inr tt, st).
Proof.
  unfold ensureClassFeaturesForLevel, bind, get_actor.
  destruct (itemOfType TyClass (actor st)); [|done].
  rewrite !bool_decide_eq_false_2 by lia. done.
Qed.

Lemma ensure_up newLevel st actorClass :
  itemOfType TyClass (actor st) = Some actorClass ->
  newLevel > actor_level (actor st) ->
  ensureClassFeaturesForLevel newLevel st =
    match getClassFeaturesForLevel actorClass (actor_level (actor st)) newLevel st with
    | (inr resolved, st1) =>
        (inr tt, embed (toCreate (classFeatures (actor st)) resolved) st1)
    | (inl e, st1) => (inl e, st1)
    end.
Proof.
  intros Hc Hgt. unfold ensureClassFeaturesForLevel. unfold bind at 1. simpl. rewrite Hc.
  rewrite bool_decide_eq_true_2 by done. unfold bind.
  by destruct (getClassFeaturesForLevel _ _ _ _) as [[e|resolved] st1].
Qed.

Lemma ensure_down newLevel st actorClass :
  itemOfType TyClass (actor st) = Some actorClass ->
  newLevel < actor_level (actor st) ->
  ensureClassFeaturesForLevel newLevel st =
    (inr tt, without (toDelete newLevel (classFeatures (actor st))) st).
Proof.
  intros Hc Hlt. unfold ensureClassFeaturesForLevel. unfold bind at 1. simpl. rewrite Hc.
  rewrite bool_decide_eq_false_2 by lia. rewrite bool_decide_eq_true_2 by done. done.
Qed.

Lemma ensure_up_inr newLevel st st1 actorClass :
  itemOfType TyClass (actor st) = Some actorClass ->
  newLevel > actor_level (actor st) ->
  ensureClassFeaturesForLevel newLevel st = (inr tt, st1) ->
  let entries := window actorClass (actor_level (actor st)) newLevel in
  let sources := resolvedSources entries (_id actorClass) in
  resolvable entries ∧
  st1 = embed (toCreate (classFeatures (actor st)) (stamp (drawn st) sources))
          (addDrawn (length sources) (addQueries (expectedQueries (packEntries entries)) st)).
Proof.
  intros Hc Hgt Hrun entries sources. rewrite (ensure_up _ _ _ Hc Hgt) in Hrun.
  rewrite getClassFeaturesForLevel_unfold in Hrun. fold entries in Hrun.
  destruct (decide (resolvable entries)) as [Hok|Hno].
  - rewrite getFeatures_ok in Hrun by done. by simplify_eq.
  - destruct (getFeatures_fail _ (_id actorClass) st Hno) as (e & n & sent & Hf & _).
    rewrite Hf in Hrun. done.
Qed.

Lemma itemOfType_app ty a more i :
  itemOfType ty a = Some i ->
  itemOfType ty (mkActor (actor_level a) (actor_items a ++ more)) = Some i.
Proof.
  unfold itemOfType. simpl. induction (actor_items a) as [|j l IH]; simpl; [done|].
  destruct (bool_decide (type j = ty)); [done|]. exact IH.
Qed.

Lemma classFeatures_embed sources st :
  classFeatures (actor (embed sources st)) =
  classFeatures (actor st) ++ filter isClassFeature sources.
Proof. unfold classFeatures, embed. simpl. apply filter_app. Qed.

Lemma alreadyAttached_mono current current' feature :
  current ⊆ current' -> alreadyAttached current feature -> alreadyAttached current' feature.
Proof.
  unfold alreadyAttached. rewrite !Exists_exists. intros Hsub (cf & Hcf & Heq).
  exists cf. split; [by apply Hsub|done].
Qed.

Lemma filter_nil_Forall {A} (P : A -> Prop) `{∀ x, Decision (P x)} (l : list A) :
  Forall (fun x => ¬ P x) l -> filter P l = [].
Proof.
  induction 1 as [|x l Hx _ IH]; [done|]. by rewrite filter_cons_False.
Qed.

Lemma filter_not_in_nil (l : list ItemSourcePF2e) :
  filter (fun i => _id i ∉ @nil string) l = l.
Proof.
  induction l as [|x l IH]; [done|].
  rewrite filter_cons_True by apply not_elem_of_nil. by rewrite IH.
Qed.

Lemma toDelete_after_delete newLevel st :
  toDelete newLevel
    (classFeatures (actor (without (toDelete newLevel (classFeatures (actor st))) st))) = [].
Proof.
  unfold toDelete at 1. rewrite filter_nil_Forall; [done|].
  apply Forall_forall. intros f Hf Hlv.
  unfold classFeatures, without in Hf. simpl in Hf.
  apply list_elem_of_filter in Hf as [Hcf Hf].
  apply list_elem_of_filter in Hf as [Hid Hf].
  apply Hid. unfold toDelete. apply list_elem_of_fmap_2.
  apply list_elem_of_filter. split; [done|].
  unfold classFeatures. by apply list_elem_of_filter.
Qed.

Lemma toCreate_again current sources n m :
  Forall (fun f => ¬ isClassFeature f)
    (toCreate (current ++ filter isClassFeature (toCreate current (stamp n sources)))
              (stamp m sources)).
Proof.
  apply Forall_forall. intros f [Hnot Hf]%list_elem_of_filter Hcf.
  apply elem_of_stamp in Hf as (i & s & Hs & ->).
  apply Hnot.
  destruct (decide (alreadyAttached current (set_id (idSource (n + i)) s))) as [Hat|Hat].
  - eapply alreadyAttached_mono; [|exact Hat]. intros x Hx. apply elem_of_app. by left.
  - apply Exists_exists. exists (set_id (idSource (n + i)) s). split; [|done].
    apply elem_of_app. right. apply list_elem_of_filter. split; [exact Hcf|].
    apply list_elem_of_filter. split; [done|].
    apply elem_of_stamp. eauto.
Qed.

Lemma classFeatures_resolved created n sent st :
  classFeatures (actor (embed created (addDrawn n (addQueries sent st)))) =
  classFeatures (actor st) ++ filter isClassFeature created.
Proof. by rewrite classFeatures_embed. Qed.

(** C3 (amended): synchronising twice in a row to the same level leaves the
    class features of the character as the first call left them.  When the
    first call returns, so does the second; the second detaches nothing,
    and all it attaches is resolved feats that are not class features: the
    items of the character after it are those before it followed by these
    feats, of which there are none when the level is not above the
    character's. *)
Theorem ensureClassFeaturesForLevel_idempotent newLevel st st1 :
  ensureClassFeaturesForLevel newLevel st = (inr tt, st1) ->
  ∃ st2 again,
    ensureClassFeaturesForLevel newLevel st1 = (inr tt, st2) ∧
    actor_items (actor st2) = actor_items (actor st1) ++ again ∧
    Forall (fun f => ¬ isClassFeature f) again ∧
    classFeatures (actor st2) = classFeatures (actor st1) ∧
    (newLevel <= actor_level (actor st) -> again = []).
Proof.
  intros Hrun.
  destruct (itemOfType TyClass (actor st)) as [actorClass|] eqn:Hc.
  2: { rewrite ensure_noClass in Hrun by done. simplify_eq.
       exists st1, []. rewrite ensure_noClass by done.
       by rewrite app_nil_r. }
  destruct (Z.lt_trichotomy newLevel (actor_level (actor st))) as [Hlt|[Heq|Hgt]].
  - rewrite (ensure_down _ _ _ Hc Hlt) in Hrun. simplify_eq.
    set (st1 := without (toDelete newLevel (classFeatures (actor st))) st).
    destruct (itemOfType TyClass (actor st1)) as [c1|] eqn:Hc1.
    + eexists _, []. split; [by apply (ensure_down _ _ c1)|].
      unfold st1. rewrite toDelete_after_delete. fold st1.
      unfold classFeatures, without. simpl. rewrite filter_not_in_nil.
      by rewrite app_nil_r.
    + exists st1, []. rewrite ensure_noClass by done. by rewrite app_nil_r.
  - subst newLevel. rewrite ensure_same in Hrun. simplify_eq.
    exists st1, []. rewrite ensure_same. by rewrite app_nil_r.
  - destruct (ensure_up_inr newLevel st st1 actorClass Hc ltac:(lia) Hrun) as [Hok ->].
    set (entries := window actorClass (actor_level (actor st)) newLevel) in *.
    set (sources := resolvedSources entries (_id actorClass)) in *.
    set (st0 := addDrawn (length sources)
                  (addQueries (expectedQueries (packEntries entries)) st)).
    set (st1 := embed (toCreate (classFeatures (actor st)) (stamp (drawn st) sources)) st0).
    assert (itemOfType TyClass (actor st1) = Some actorClass) as Hc1
      by (by apply itemOfType_app).
    assert (classFeatures (actor st1) =
            classFeatures (actor st) ++
            filter isClassFeature
              (toCreate (classFeatures (actor st)) (stamp (drawn st) sources))) as Hst1
      by apply classFeatures_resolved.
    assert (Forall (fun f => ¬ isClassFeature f)
              (toCreate (classFeatures (actor st1)) (stamp (drawn st1) sources))) as Hagain
      by (rewrite Hst1; apply toCreate_again).
    eexists _, (toCreate (classFeatures (actor st1)) (stamp (drawn st1) sources)).
    split.
    + rewrite (ensure_up _ _ _ Hc1) by (simpl; lia).
      rewrite getClassFeaturesForLevel_unfold. simpl actor_level.
      fold entries. rewrite getFeatures_ok by done. fold sources. done.
    + split; [done|]. split; [exact Hagain|]. split; [|lia].
      rewrite classFeatures_resolved.
      by rewrite (filter_nil_Forall isClassFeature), app_nil_r.
Qed.

(** C9: in the upward branch a resolved feature is left out exactly when a
    class feature already attached records the same source, where two
    absent sources count as the same: a resolved feature with no recorded
    source is left out if and only if some attached class feature has no
    recorded source either. *)
Theorem ensure_upward_absent_sourceId newLevel st st1 actorClass :
  itemOfType TyClass (actor st) = Some actorClass ->
  newLevel > actor_level (actor st) ->
  ensureClassFeaturesForLevel newLevel st = (inr tt, st1) ->
  ∃ resolved added,
    (getClassFeaturesForLevel actorClass (actor_level (actor st)) newLevel st).1
      = inr resolved ∧
    actor_items (actor st1) = actor_items (actor st) ++ added ∧
    (∀ feature, feature ∈ resolved ->
       (feature ∉ added ↔
        ∃ cf, cf ∈ classFeatures (actor st) ∧ sourceId cf = sourceId feature)) ∧
    (∀ feature, feature ∈ resolved -> sourceId feature = None ->
       (feature ∉ added ↔
        ∃ cf, cf ∈ classFeatures (actor st) ∧ sourceId cf = None)).
Proof.
  intros Hc Hgt Hrun.
  destruct (ensure_up_inr newLevel st st1 actorClass Hc Hgt Hrun) as [Hok ->].
  set (entries := window actorClass (actor_level (actor st)) newLevel) in *.
  set (sources := resolvedSources entries (_id actorClass)) in *.
  exists (stamp (drawn st) sources),
         (toCreate (classFeatures (actor st)) (stamp (drawn st) sources)).
  assert (∀ feature, feature ∈ stamp (drawn st) sources ->
            (feature ∉ toCreate (classFeatures (actor st)) (stamp (drawn st) sources) ↔
             ∃ cf, cf ∈ classFeatures (actor st) ∧ sourceId cf = sourceId feature)) as Hiff.
  { intros feature Hin. unfold toCreate. rewrite list_elem_of_filter.
    destruct (decide (alreadyAttached (classFeatures (actor st)) feature)) as [Hat|Hat].
    - split; [|by intros _ [Hn _]].
      intros _. by apply Exists_exists in Hat.
    - split; [by intros []|].
      intros Hex. destruct Hat. by apply Exists_exists. }
  split_and!.
  - rewrite getClassFeaturesForLevel_unfold. fold entries.
    by rewrite getFeatures_ok.
  - done.
  - exact Hiff.
  - intros feature Hin Hnone. rewrite <- Hnone. by apply Hiff.
Qed.

Lemma filter_all {A} (P : A -> Prop) `{∀ x, Decision (P x)} (l : list A) :
  Forall P l -> filter P l = l.
Proof.
  induction 1 as [|x l Hx _ IH]; [done|]. rewrite filter_cons_True by done. by rewrite IH.
Qed.

(** A class feature resolved for a window of entries that all name a pack
    has its level inside the window. *)
Lemma resolved_classFeature_level classSource minLevel actorLevel n f :
  (∀ entry, entry ∈ Object_values (items classSource) -> truthy (entry_pack entry)) ->
  f ∈ stamp n (resolvedSources (window classSource minLevel actorLevel) (_id classSource)) ->
  featType f = "classfeature" ->
  minLevel < level f <= actorLevel.
Proof.
  intros Hpacks Hf Hft.
  apply elem_of_stamp in Hf as (i & s & Hs%list_elem_of_lookup_2 & ->).
  apply resolvedSources_elem in Hs as (entry & He & Hres).
  pose proof He as [Hin _]%elem_of_window.
  destruct (resolution_pack_level _ _ _ _ He Hres (Hpacks _ Hin) Hft)
    as (entry' & He' & _ & Hl).
  apply elem_of_window in He' as [_ Hlv]. simpl. lia.
Qed.

(** C7 (amended): a character of level N holds a class whose entries all
    name a pack, and class features of level at most N.  Synchronising up
    to a higher level, recording that level on the character, and then
    synchronising back down to N leaves exactly the class features the
    character started with.  The synchroniser does not record the level
    itself. *)
Theorem ensure_up_then_down newLevel st st1 st2 actorClass r :
  itemOfType TyClass (actor st) = Some actorClass ->
  (∀ entry, entry ∈ Object_values (items actorClass) -> truthy (entry_pack entry)) ->
  Forall (fun f => level f <= actor_level (actor st)) (classFeatures (actor st)) ->
  (∀ k, (drawn st <= k)%nat -> idSource k ∉ _id <$> actor_items (actor st)) ->
  newLevel > actor_level (actor st) ->
  ensureClassFeaturesForLevel newLevel st = (inr tt, st1) ->
  ensureClassFeaturesForLevel (actor_level (actor st)) (setActorLevel newLevel st1)
    = (r, st2) ->
  r = inr tt ∧
  classFeatures (actor st2) = classFeatures (actor st) ∧
  Forall (fun f => level f <= actor_level (actor st)) (classFeatures (actor st2)).
Proof.
  intros Hc Hpacks Hlow Hfresh Hgt Hup Hdown.
  destruct (ensure_up_inr newLevel st st1 actorClass Hc Hgt Hup) as [Hok ->].
  set (N := actor_level (actor st)) in *.
  set (sources := resolvedSources (window actorClass N newLevel) (_id actorClass)) in *.
  set (created := toCreate (classFeatures (actor st)) (stamp (drawn st) sources)) in *.
  assert (∀ f, f ∈ created -> f ∈ stamp (drawn st) sources) as Hcreated.
  { intros f Hf. unfold created, toCreate in Hf. by apply list_elem_of_filter in Hf as [_ ?]. }
  rewrite (ensure_down _ _ actorClass) in Hdown.
  2: { simpl. by apply (itemOfType_app TyClass (actor st)). }
  2: { simpl. lia. }
  injection Hdown as <- <-. split; [done|].
  match goal with |- ?X = ?Y ∧ _ => cut (X = Y); [by intros ->|] end.
  unfold classFeatures at 1 2. simpl.
  set (ids := toDelete N (filter isClassFeature (actor_items (actor st) ++ created))).
  assert (∀ f, f ∈ created -> isClassFeature f -> _id f ∈ ids) as Hdel.
  { intros f Hf Hcf. unfold ids, toDelete. apply list_elem_of_fmap_2.
    apply list_elem_of_filter. split.
    - destruct Hcf as [_ Hft].
      pose proof (resolved_classFeature_level actorClass N newLevel _ f Hpacks
                    (Hcreated f Hf) Hft). lia.
    - apply list_elem_of_filter. split; [done|]. apply elem_of_app. by right. }
  assert (∀ i, i ∈ actor_items (actor st) -> _id i ∉ ids) as Hkeep.
  { intros i Hi Hin. unfold ids, toDelete in Hin.
    apply list_elem_of_fmap in Hin as (f & Hid & Hf).
    apply list_elem_of_filter in Hf as [Hlv Hf].
    apply list_elem_of_filter in Hf as [Hcf Hf].
    apply elem_of_app in Hf as [Hf|Hf].
    - rewrite Forall_forall in Hlow.
      assert (level f <= N) by (apply Hlow; by apply list_elem_of_filter). lia.
    - apply Hcreated in Hf. apply elem_of_stamp in Hf as (k & s & _ & ->).
      simpl in Hid. apply (Hfresh (drawn st + k)%nat); [lia|].
      rewrite <- Hid. by apply list_elem_of_fmap_2. }
  rewrite filter_app, filter_app.
  rewrite (filter_all (fun i => _id i ∉ ids) (actor_items (actor st)))
    by (by apply Forall_forall).
  rewrite (filter_nil_Forall isClassFeature (filter _ created)); [by rewrite app_nil_r|].
  apply Forall_forall. intros f [Hid Hf]%list_elem_of_filter Hcf.
  apply Hid. by apply Hdel.
Qed.

(** ** The assurance substitution *)

Lemma getItemSource_inr packName itemName st v st' :
  getItemSource packName itemName st = (inr v, st') ->
  ∃ docs doc,
    packs game !! packName = Some docs ∧
    filter (fun d => matches_in [sluggify itemName] (slug (_source d))) docs = [doc] ∧
    v = toObject doc ∧
    st' = addQueries [QuerySlug packName [sluggify itemName]] st.
Proof.
  unfold getItemSource, packs_get. simpl.
  destruct (packs game !! packName) as [docs|] eqn:Hdocs; [|done].
  rewrite (bind_run _ _ _ docs st) by done.
  unfold getDocuments_slug. unfold bind. simpl.
  destruct (filter _ docs) as [|doc [|doc' rest]] eqn:Hf; [done| |done].
  intros [= <- <-]. eauto 10.
Qed.

(** C10: a skill for which no item of the batch has the slug [assurance]
    is passed over: the loop body returns the batch as it is, throws
    nothing, and sends no query and draws no identity. *)
Theorem substituteAssurance_skip itemsToCreate skill st :
  list_find (fun item => slug item = Some "assurance") itemsToCreate = None ->
  substituteAssurance itemsToCreate skill st = (inr itemsToCreate, st).
Proof. intros Hfind. unfold substituteAssurance. by rewrite Hfind. Qed.

Lemma substituteAssurance_inr batch skill st batch' st' :
  substituteAssurance batch skill st = (inr batch', st') ->
  (list_find (fun item => slug item = Some "assurance") batch = None ∧
   batch' = batch ∧ st' = st) ∨
  (∃ index found docs doc,
     list_find (fun item => slug item = Some "assurance") batch = Some (index, found) ∧
     packs game !! "pf2e.feats-srd" = Some docs ∧
     filter (fun d => matches_in [sluggify ("Assurance (" +:+ skill +:+ ")")]
                                 (slug (_source d))) docs = [doc] ∧
     batch' = <[index := set_location (location found)
                           (set_id (idSource (drawn st)) (toObject doc))]> batch ∧
     drawn st' = S (drawn st) ∧ actor st' = actor st).
Proof.
  unfold substituteAssurance.
  destruct (list_find _ batch) as [[index found]|] eqn:Hfind.
  - intros (variant & st1 & Hget & Hrest)%bind_inr. right.
    apply getItemSource_inr in Hget as (docs & doc & Hdocs & Hf & -> & ->).
    unfold bind, randomID, ret in Hrest. simpl in Hrest.
    injection Hrest as <- <-. exists index, found, docs, doc. done.
  - intros [= <- <-]. by left.
Qed.

Lemma forM_substituteAssurance skills batch st batch' st' :
  (∀ i j, idSource i = idSource j -> i = j) ->
  drawnIds st batch ->
  forM substituteAssurance skills batch st = (inr batch', st') ->
  substituted skills batch batch' ∧ length batch' = length batch ∧ actor st' = actor st.
Proof.
  intros Hinj. revert batch st.
  induction skills as [|skill skills IH]; intros batch st Hids Hrun; simpl in Hrun.
  - injection Hrun as <- <-. split; [constructor|done].
  - apply bind_inr in Hrun as (batch1 & st1 & Hstep & Hrest).
    apply substituteAssurance_inr in Hstep
      as [(Hfind & -> & ->)|(index & found & docs & doc & Hfind & Hdocs & Hf & -> & Hd & Ha)].
    + destruct (IH _ _ Hids Hrest) as (Hsub & Hlen & Hact).
      split; [by apply substituted_skip|done].
    + pose proof Hfind as (Hfound & _ & _)%list_find_Some.
      assert (idSource (drawn st) <> _id found) as Hnew.
      { unfold drawnIds in Hids. rewrite Forall_forall in Hids.
        destruct (Hids found ltac:(by eapply list_elem_of_lookup_2)) as (k & Hk & ->).
        intros Heq%Hinj. lia. }
      assert (drawnIds st1
                (<[index := set_location (location found)
                              (set_id (idSource (drawn st)) (toObject doc))]> batch))
        as Hids1.
      { unfold drawnIds. apply Forall_insert.
        - eapply Forall_impl; [exact Hids|]. intros i (k & Hk & ->). exists k. split; [lia|done].
        - exists (drawn st). split; [lia|done]. }
      destruct (IH _ _ Hids1 Hrest) as (Hsub & Hlen & Hact).
      split; [by eapply substituted_replace|].
      rewrite Hlen, length_insert. split; [done|congruence].
Qed.

Lemma addFeatures_inr itemSource options st created st' :
  addFeatures itemSource true options st = (inr created, st') ->
  let entries := Object_values (items itemSource) in
  let features := stamp (S (drawn st)) (resolvedSources entries (idSource (drawn st))) in
  let batch := set_id (idSource (drawn st)) itemSource :: features in
  ∃ st1 st2,
    (getFeatures entries (idSource (drawn st)) (addDrawn 1 st)).1 = inr features ∧
    drawnIds st1 batch ∧ actor st1 = actor st ∧
    match options ≫= assurance with
    | Some skills => forM substituteAssurance skills batch st1 = (inr created, st2)
    | None => created = batch ∧ st2 = st1
    end ∧
    st' = embed created st2.
Proof.
  intros Hrun entries features batch. unfold addFeatures in Hrun.
  apply bind_inr in Hrun as (sourceAndItems & st0 & Hsrc & Hrun).
  unfold bind, randomID, ret in Hsrc. simpl in Hsrc. injection Hsrc as <- <-.
  apply bind_inr in Hrun as (resolved & st1 & Hres & Hrun).
  apply bind_inr in Hrun as (final & st2 & Hloop & Hrun).
  rewrite createEmbeddedDocuments_run in Hrun. injection Hrun as <- <-.
  simpl in Hres. fold entries in Hres.
  assert (mkSt (S (drawn st)) (queries st) (actor st) = addDrawn 1 st) as Hst
    by (unfold addDrawn; f_equal; lia).
  rewrite Hst in Hres.
  destruct (decide (resolvable entries)) as [Hok|Hno].
  2: { destruct (getFeatures_fail _ (idSource (drawn st)) (addDrawn 1 st) Hno)
         as (e & n & sent & Hf & _). rewrite Hf in Hres. done. }
  rewrite getFeatures_ok in Hres by done.
  replace (drawn (addDrawn 1 st)) with (S (drawn st)) in Hres by (simpl; lia).
  injection Hres as <- <-. fold features in Hloop. simpl in Hloop.
  exists (addDrawn (length (resolvedSources entries (idSource (drawn st))))
            (addQueries (expectedQueries (packEntries entries)) (addDrawn 1 st))), st2.
  split.
  { rewrite getFeatures_ok by done.
    by replace (drawn (addDrawn 1 st)) with (S (drawn st)) by (simpl; lia). }
  split.
  { unfold drawnIds, batch. constructor.
    - exists (drawn st). simpl. split; [lia|done].
    - apply Forall_forall. intros f (i & s & Hs & ->)%elem_of_stamp.
      apply lookup_lt_Some in Hs. exists (S (drawn st) + i)%nat. simpl. split; [lia|done]. }
  split; [done|]. split; [|done].
  destruct (options ≫= assurance) as [skills|]; [done|].
  by injection Hloop as <- <-.
Qed.

Lemma addABCItem_ancestry_background source options st :
  type source = TyAncestry ∨ type source = TyBackground ->
  addABCItem source options st =
  addFeatures source true options (setActor (withoutItem (type source) (actor st)) st).
Proof.
  intros [Hty|Hty]; unfold addABCItem; rewrite Hty;
    unfold bind at 1; simpl; unfold bind at 1; by rewrite delete_item_run.
Qed.


(** ** What a call touches and what it throws *)

Lemma keepsActor_ret {A} (a : A) : keepsActor (ret a).
Proof. done. Qed.

Lemma keepsActor_throw {A} e : keepsActor (@throw A e).
Proof. done. Qed.

Lemma keepsActor_bind {A B} (m : M A) (k : A -> M B) :
  keepsActor m -> (∀ a, keepsActor (k a)) -> keepsActor (bind m k).
Proof.
  intros Hm Hk st. unfold bind. specialize (Hm st).
  destruct (m st) as [[e|a] st1]; simpl in *; [done|].
  by rewrite Hk.
Qed.

Lemma keepsActor_forM {A B} (f : B -> A -> M B) l acc :
  (∀ b x, keepsActor (f b x)) -> keepsActor (forM f l acc).
Proof.
  intros Hf. revert acc. induction l as [|x l IH]; intros acc; simpl; [done|].
  by apply keepsActor_bind.
Qed.

Lemma throwsOnly_ret {A} P (a : A) : throwsOnly P (ret a).
Proof. by intros st e st'. Qed.

Lemma throwsOnly_throw {A} (P : Error -> Prop) e : P e -> throwsOnly P (@throw A e).
Proof. intros He st e' st' [= <- _]. done. Qed.

Lemma throwsOnly_bind {A B} P (m : M A) (k : A -> M B) :
  throwsOnly P m -> (∀ a, throwsOnly P (k a)) -> throwsOnly P (bind m k).
Proof.
  intros Hm Hk st e st'. unfold bind.
  destruct (m st) as [[e1|a] st1] eqn:Hrun.
  - intros [= <- <-]. by eapply Hm.
  - apply Hk.
Qed.

Lemma throwsOnly_mapM {A B} P (f : A -> M B) l :
  (∀ x, throwsOnly P (f x)) -> throwsOnly P (mapM f l).
Proof.
  intros Hf. induction l as [|x l IH]; simpl; [apply throwsOnly_ret|].
  apply throwsOnly_bind; [done|]. intros y.
  apply throwsOnly_bind; [done|]. intros ys. apply throwsOnly_ret.
Qed.

Lemma throwsOnly_forM {A B} P (f : B -> A -> M B) l acc :
  (∀ b x, throwsOnly P (f b x)) -> throwsOnly P (forM f l acc).
Proof.
  intros Hf. revert acc. induction l as [|x l IH]; intros acc; simpl;
    [apply throwsOnly_ret|].
  by apply throwsOnly_bind.
Qed.

Lemma throwsOnly_weaken {A} (P Q : Error -> Prop) (m : M A) :
  (∀ e, P e -> Q e) -> throwsOnly P m -> throwsOnly Q m.
Proof. intros HPQ Hm st e st' Hrun. apply HPQ. by eapply Hm. Qed.

Lemma throwsOnly_randomID P : throwsOnly P randomID.
Proof. by intros st e st'. Qed.

Lemma throwsOnly_packs_get pack : throwsOnly resolverError (packs_get pack).
Proof.
  unfold packs_get. destruct (pack ≫= _).
  - apply throwsOnly_ret.
  - apply throwsOnly_throw. right. right. eauto.
Qed.

Lemma throwsOnly_overrideLevel entries feature :
  throwsOnly resolverError (overrideLevel entries feature).
Proof.
  unfold overrideLevel. destruct (List.find _ entries); [|apply throwsOnly_ret].
  destruct (featType_getter feature).
  - case_bool_decide; apply throwsOnly_ret.
  - apply throwsOnly_throw. right. by left.
Qed.

Lemma throwsOnly_getFromCompendium entries :
  throwsOnly resolverError (getFromCompendium entries).
Proof.
  unfold getFromCompendium. apply throwsOnly_forM. intros feats pack.
  unfold fetchPack. apply throwsOnly_bind; [apply throwsOnly_packs_get|]. intros docs.
  apply throwsOnly_bind.
  { unfold getDocuments_ids. apply throwsOnly_bind; [by intros ???|].
    intros _. apply throwsOnly_ret. }
  intros features. apply throwsOnly_bind; [|intros ?; apply throwsOnly_ret].
  apply throwsOnly_mapM. intros d. apply throwsOnly_overrideLevel.
Qed.

Lemma throwsOnly_getFeatures entries locationId :
  throwsOnly resolverError (getFeatures entries locationId).
Proof.
  unfold getFeatures. case_bool_decide; [apply throwsOnly_ret|].
  apply throwsOnly_bind.
  { case_bool_decide; [apply throwsOnly_ret|].
    apply throwsOnly_bind; [apply throwsOnly_getFromCompendium|]. intros feats.
    apply throwsOnly_mapM. intros feat. unfold fromCompendiumFeat.
    destruct (instanceof_FeatPF2e feat).
    - apply throwsOnly_bind; [apply throwsOnly_randomID|]. intros ?. apply throwsOnly_ret.
    - apply throwsOnly_throw. by left. }
  intros fromPacks. apply throwsOnly_bind; [|intros ?; apply throwsOnly_ret].
  apply throwsOnly_mapM. intros entry. unfold fromGameEntry.
  destruct (game_items game !! entry_id entry) as [item|];
    [|apply throwsOnly_throw; by left].
  destruct (instanceof_FeatPF2e item).
  - apply throwsOnly_bind; [apply throwsOnly_randomID|]. intros ?. apply throwsOnly_ret.
  - apply throwsOnly_throw. by left.
Qed.

Lemma throwsOnly_getClassFeaturesForLevel classSource minLevel actorLevel :
  throwsOnly resolverError (getClassFeaturesForLevel classSource minLevel actorLevel).
Proof.
  intros st e st'. rewrite getClassFeaturesForLevel_unfold. apply throwsOnly_getFeatures.
Qed.

Lemma keepsActor_getItemSource packName itemName :
  keepsActor (getItemSource packName itemName).
Proof.
  unfold getItemSource. apply keepsActor_bind.
  { unfold packs_get. by destruct (Some packName ≫= _). }
  intros docs. apply keepsActor_bind; [done|].
  intros found. by destruct found as [|doc [|doc' rest]].
Qed.

Lemma throwsOnly_getItemSource itemName :
  throwsOnly attachError (getItemSource "pf2e.feats-srd" itemName).
Proof.
  unfold getItemSource. apply throwsOnly_bind.
  { eapply throwsOnly_weaken; [|apply throwsOnly_packs_get]. intros e He. by left. }
  intros docs. apply throwsOnly_bind; [by intros ???|].
  intros found. destruct found as [|doc [|doc' rest]].
  - apply throwsOnly_throw. right. eauto.
  - apply throwsOnly_ret.
  - apply throwsOnly_throw. right. eauto.
Qed.

Lemma keepsActor_substituteAssurance batch skill :
  keepsActor (substituteAssurance batch skill).
Proof.
  unfold substituteAssurance. destruct (list_find _ batch) as [[index found]|]; [|done].
  apply keepsActor_bind; [apply keepsActor_getItemSource|]. intros v.
  by apply keepsActor_bind.
Qed.

Lemma throwsOnly_substituteAssurance batch skill :
  throwsOnly attachError (substituteAssurance batch skill).
Proof.
  unfold substituteAssurance. destruct (list_find _ batch) as [[index found]|];
    [|apply throwsOnly_ret].
  apply throwsOnly_bind; [apply throwsOnly_getItemSource|]. intros v.
  apply throwsOnly_bind; [apply throwsOnly_randomID|]. intros ?. apply throwsOnly_ret.
Qed.

Lemma bind_inl {A B} (m : M A) (k : A -> M B) st e st' :
  bind m k st = (inl e, st') ->
  m st = (inl e, st') ∨ ∃ a st1, m st = (inr a, st1) ∧ k a st1 = (inl e, st').
Proof.
  unfold bind. destruct (m st) as [[e1|a] st1] eqn:Hm; intros Hrun.
  - left. by injection Hrun as -> ->.
  - right. eauto.
Qed.

Lemma addFeatures_fail itemSource createSource options st e st' :
  addFeatures itemSource createSource options st = (inl e, st') ->
  attachError e ∧ actor st' = actor st.
Proof.
  unfold addFeatures. intros Hrun.
  apply bind_inl in Hrun as [Hrun|(sourceAndItems & st0 & Hpre & Hrun)].
  { destruct createSource; [|done]. unfold bind, randomID, ret in Hrun. done. }
  assert (actor st0 = actor st) as Hact0.
  { destruct createSource.
    - unfold bind, randomID, ret in Hpre. by injection Hpre as <- <-.
    - by injection Hpre as <- <-. }
  apply bind_inl in Hrun as [Hrun|(features & st1 & Hres & Hrun)].
  { split.
    - left. by eapply throwsOnly_getFeatures.
    - rewrite <- Hact0.
      pose proof (keepsActor_getFeatures (Object_values (items sourceAndItems.1))
                    (_id sourceAndItems.1) st0) as Hk.
      by rewrite Hrun in Hk. }
  assert (actor st1 = actor st) as Hact1.
  { rewrite <- Hact0.
    pose proof (keepsActor_getFeatures (Object_values (items sourceAndItems.1))
                  (_id sourceAndItems.1) st0) as Hk.
    by rewrite Hres in Hk. }
  apply bind_inl in Hrun as [Hrun|(final & st2 & Hloop & Hrun)]; [|done].
  destruct (options ≫= assurance) as [skills|]; [|done]. split.
  - eapply throwsOnly_forM; [|exact Hrun]. intros b x. apply throwsOnly_substituteAssurance.
  - rewrite <- Hact1.
    pose proof (keepsActor_forM substituteAssurance skills
                  (sourceAndItems.2 ++ features) keepsActor_substituteAssurance st1) as Hk.
    by rewrite Hrun in Hk.
Qed.

Lemma addABCItem_fail source options st e st' :
  isABC (type source) ->
  addABCItem source options st = (inl e, st') ->
  attachError e ∧ actor st' = withoutItem (type source) (actor st).
Proof.
  intros [Hty|[Hty|Hty]] Hrun.
  - rewrite addABCItem_ancestry_background in Hrun by (by left).
    by apply addFeatures_fail in Hrun.
  - rewrite addABCItem_ancestry_background in Hrun by (by right).
    by apply addFeatures_fail in Hrun.
  - rewrite addABCItem_class in Hrun by done. rewrite Hty.
    destruct (getClassFeaturesForLevel _ _ _ _) as [[e1|resolved] st2] eqn:Hres; [|done].
    injection Hrun as <- <-. split.
    + left. by eapply throwsOnly_getClassFeaturesForLevel.
    + pose proof (keepsActor_getClassFeaturesForLevel (classItem source st) 0
                    (actor_level (actor st)) (classStart st)) as Hk.
      by rewrite Hres in Hk.
Qed.

Lemma addABCItem_other source options st :
  ¬ isABC (type source) ->
  addABCItem source options st = (inl InvalidItemType, st).
Proof.
  intros Hty. unfold addABCItem, isABC in *.
  destruct (type source); try done; destruct Hty; auto.
Qed.

(** X1: [addABCItem] throws its "Invalid item type for ABC creation" error
    exactly for a source that is no ancestry, background or class: such a
    source always fails with it, before anything is detached, drawn or
    queried, and no other source does; on the three kinds every failure is
    one of the resolver (a missing pack, a record of the wrong shape) or
    the failed lookup of an assurance variant. *)
Theorem addABCItem_error_kinds source options st :
  ((addABCItem source options st).1 = inl InvalidItemType ↔ ¬ isABC (type source)) ∧
  (¬ isABC (type source) -> addABCItem source options st = (inl InvalidItemType, st)) ∧
  (isABC (type source) ->
   ∀ e st', addABCItem source options st = (inl e, st') -> attachError e).
Proof.
  split; [|split].
  - split.
    + intros Hrun Habc.
      destruct (addABCItem source options st) as [r st'] eqn:Hcall.
      simpl in Hrun. subst r.
      destruct (addABCItem_fail _ _ _ _ _ Habc Hcall) as [Herr _].
      destruct Herr as [[?|[?|[? ?]]]|[? ?]]; done.
    + intros Hother. by rewrite addABCItem_other.
  - apply addABCItem_other.
  - intros Habc e st' Hrun. by destruct (addABCItem_fail _ _ _ _ _ Habc Hrun).
Qed.

(** X2: an attach that fails has already detached the character's record
    of the kind and attaches nothing: the character is left with the items
    it had, less the old ancestry, background or class. *)
Theorem addABCItem_failure_detached source options st e st' :
  isABC (type source) ->
  addABCItem source options st = (inl e, st') ->
  actor st' = withoutItem (type source) (actor st).
Proof. intros Habc Hrun. by destruct (addABCItem_fail _ _ _ _ _ Habc Hrun). Qed.

(** ** Looking an item up by name *)

Lemma matches_in_singleton s field : matches_in [s] field ↔ field = Some s.
Proof.
  destruct field as [v|]; simpl; [|done].
  rewrite list_elem_of_singleton. split; [by intros ->|by intros [= ->]].
Qed.

Lemma filter_slug (docs : list (ItemPF2e D)) s :
  filter (fun d : ItemPF2e D => matches_in [s] (slug (_source d))) docs =
  filter (fun d : ItemPF2e D => slug (_source d) = Some s) docs.
Proof. apply list_filter_iff. intros d. apply matches_in_singleton. Qed.

(** X3: what [getItemSource] returns is the source of a record of the pack
    whose slug is the slug of the name asked for, and that record is the
    only one of the pack with that slug. *)
Theorem getItemSource_unique packName itemName st v st' :
  getItemSource packName itemName st = (inr v, st') ->
  slug v = Some (sluggify itemName) ∧
  ∃ docs,
    packs game !! packName = Some docs ∧
    (∃ doc, doc ∈ docs ∧ v = toObject doc) ∧
    length (filter (fun d => slug (_source d) = Some (sluggify itemName)) docs) = 1%nat.
Proof.
  intros (docs & doc & Hdocs & Hf & -> & _)%getItemSource_inr.
  rewrite filter_slug in Hf.
  assert (doc ∈ filter (fun d => slug (_source d) = Some (sluggify itemName)) docs)
    as [Hslug Hin]%list_elem_of_filter by (rewrite Hf; apply list_elem_of_here).
  split; [done|]. exists docs. split; [done|]. split; [eauto|]. by rewrite Hf.
Qed.

(** X4: when the pack holds no record, or more than one, with the slug of
    the name, [getItemSource] throws its "Cannot find" error for that name
    and pack, after the one query it sent. *)
Theorem getItemSource_not_unique packName itemName docs st :
  packs game !! packName = Some docs ->
  length (filter (fun d => slug (_source d) = Some (sluggify itemName)) docs) <> 1%nat ->
  getItemSource packName itemName st =
    (inl (CannotFind itemName packName),
     addQueries [QuerySlug packName [sluggify itemName]] st).
Proof.
  intros Hdocs Hlen. unfold getItemSource, packs_get. simpl. rewrite Hdocs.
  rewrite (bind_run _ _ _ docs st) by done.
  unfold getDocuments_slug, bind. simpl. rewrite filter_slug.
  by destruct (filter _ docs) as [|doc [|doc' rest]].
Qed.

(** ** The order and the location of what is resolved *)

(** The features resolved from the packs are the resolutions of the entries
    that name a pack. *)
Lemma packSources_elem entries locationId s :
  s ∈ (fun feat => set_location (Some locationId) (toObject feat))
        <$> compendiumFeats (packEntries entries) ↔
  ∃ entry, entry ∈ entries ∧ truthy (entry_pack entry) ∧
           resolution entries locationId entry s.
Proof.
  split.
  - intros (f & -> & Hf)%list_elem_of_fmap.
    apply compendiumFeats_elem in Hf as (pack & d & Hpack & Hd & ->).
    apply fetched_elem in Hd as (p & docs & -> & Hdocs & Hd & Hid).
    unfold entryIds in Hid.
    apply list_elem_of_fmap in Hid as (entry & Hid & [Hp He]%list_elem_of_filter).
    apply list_elem_of_filter in He as [Ht He].
    exists entry. split; [done|]. split; [done|].
    rewrite Hp in Ht. apply truthy_Some in Ht.
    by eapply resolution_pack.
  - intros (entry & He & Ht & Hres).
    destruct Hres as [entry p docs d Hp Hne Hdocs Hd Hid|entry item Hnt Hitem]; [|done].
    apply list_elem_of_fmap.
    exists (overridden (packEntries entries) d). split; [done|].
    assert (entry ∈ packEntries entries) as Hpe by (by apply list_elem_of_filter).
    apply compendiumFeats_elem. exists (Some p), d. split_and!; [| |done].
    + apply elem_of_js_Set. rewrite <- Hp. by apply list_elem_of_fmap_2.
    + unfold fetched. simpl. rewrite Hdocs. apply list_elem_of_filter. split; [|done].
      rewrite Hid. unfold entryIds. apply list_elem_of_fmap_2.
      by apply list_elem_of_filter.
Qed.

(** The features resolved from the world are the world items the entries
    name, one for each entry and in their order, under the draws of the
    generator from the [n]-th on. *)
Lemma gameSources_draws n entries :
  Forall gameEntryOK entries ->
  Forall2 (fun entry f =>
             ∃ item k, game_items game !! entry_id entry = Some item ∧
                       type (_source item) = TyFeat ∧
                       (n <= k < n + length entries)%nat ∧
                       f = set_id (idSource k) (_source item))
          entries (stamp n (gameSources entries)).
Proof.
  intros HF. revert n. induction HF as [|e l (item & Hitem & Hty) _ IH]; intros n.
  - constructor.
  - unfold gameSources. simpl. rewrite Hitem. simpl. rewrite stamp_cons.
    constructor.
    + exists item, n. split; [done|]. split; [done|]. split; [lia|done].
    + eapply Forall2_impl; [apply (IH (S n))|].
      intros entry f (item' & k & Hi & Ht & Hk & Hf).
      exists item', k. split; [done|]. split; [done|]. split; [lia|done].
Qed.

Lemma gameSources_length entries :
  Forall gameEntryOK entries -> length (gameSources entries) = length entries.
Proof.
  induction 1 as [|e l (item & Hitem & Hty) _ IH]; [done|].
  unfold gameSources. simpl. rewrite Hitem. simpl. f_equal. exact IH.
Qed.

(** X5: [getFeatures] returns the features of the entries that name a pack
    first and then those of the other entries.  The first are exactly the
    resolutions of the entries that name a pack: the documents the packs
    hold under the identities of their entries, pack by pack in the order
    in which the packs first appear and within a pack in its own order,
    each a feat that carries the location passed in.  The second are the
    world items the other entries name, one for each such entry and in the
    order of the entries, as they are, so with whatever location the world
    item has.  Every feature returned is under an identity of its own: the
    identities are the consecutive draws of the generator made during the
    call, in the order of the result. *)
Theorem getFeatures_packs_then_world entries locationId st feats st' :
  getFeatures entries locationId st = (inr feats, st') ->
  ∃ fromPacks fromWorld,
    feats = fromPacks ++ fromWorld ∧
    drawn st' = (drawn st + length feats)%nat ∧
    _id <$> feats = idSource <$> seq (drawn st) (length feats) ∧
    fromPacks =
      stamp (drawn st)
        ((fun feat => set_location (Some locationId) (toObject feat))
           <$> (pack ← js_Set (entry_pack <$> packEntries entries) ;
                overridden (packEntries entries) <$> fetched (packEntries entries) pack)) ∧
    Forall (fun f => type f = TyFeat ∧ location f = Some locationId) fromPacks ∧
    (∀ f, f ∈ fromPacks ->
       ∃ entry f0 k,
         entry ∈ entries ∧ truthy (entry_pack entry) ∧
         resolution entries locationId entry f0 ∧
         (drawn st <= k < drawn st + length fromPacks)%nat ∧
         f = set_id (idSource k) f0) ∧
    (∀ entry f0,
       entry ∈ entries -> truthy (entry_pack entry) ->
       resolution entries locationId entry f0 ->
       ∃ f k, f ∈ fromPacks ∧ (drawn st <= k < drawn st + length fromPacks)%nat ∧
              f = set_id (idSource k) f0) ∧
    Forall2 (fun entry f =>
               ∃ item k, game_items game !! entry_id entry = Some item ∧
                         type (_source item) = TyFeat ∧
                         (drawn st + length fromPacks <= k < drawn st')%nat ∧
                         f = set_id (idSource k) (_source item))
            (filter (fun e => ¬ truthy (entry_pack e)) entries) fromWorld.
Proof.
  intros Hrun. destruct (decide (resolvable entries)) as [[Hc Hg]|Hno].
  2: { destruct (getFeatures_fail _ locationId st Hno) as (e & n & sent & Hf & _).
       congruence. }
  rewrite getFeatures_ok in Hrun by done. injection Hrun as <- <-.
  set (packSources := (fun feat => set_location (Some locationId) (toObject feat))
                        <$> compendiumFeats (packEntries entries)).
  fold (gameEntries entries) in *.
  assert (resolvedSources entries locationId
          = packSources ++ gameSources (gameEntries entries)) as Hsplit by done.
  assert (length (stamp (drawn st) packSources) = length packSources) as Hlp
    by (unfold stamp; by rewrite length_imap).
  assert (length (stamp (drawn st) (resolvedSources entries locationId))
          = length (resolvedSources entries locationId)) as Hlr
    by (unfold stamp; by rewrite length_imap).
  exists (stamp (drawn st) packSources),
         (stamp (drawn st + length packSources) (gameSources (gameEntries entries))).
  split; [by rewrite Hsplit, stamp_app|].
  split; [simpl; lia|].
  split; [by rewrite stamp_ids, Hlr|].
  split; [done|].
  rewrite Hlp. split; [|split; [|split]].
  - apply Forall_forall. intros f (i & s & Hs%list_elem_of_lookup_2 & ->)%elem_of_stamp.
    apply list_elem_of_fmap in Hs as (d & -> & Hd). simpl. split; [|done].
    pose proof (compendiumFeats_feats _ Hc) as Hfeats. rewrite Forall_forall in Hfeats.
    by apply Hfeats.
  - intros f (i & s & Hi & ->)%elem_of_stamp.
    pose proof (lookup_lt_Some _ _ _ Hi) as Hlt.
    apply list_elem_of_lookup_2 in Hi as Hs.
    apply packSources_elem in Hs as (entry & He & Ht & Hres).
    exists entry, s, (drawn st + i)%nat.
    split; [done|]. split; [done|]. split; [done|]. split; [lia|done].
  - intros entry f0 He Ht Hres.
    assert (f0 ∈ packSources) as Hf0 by (apply packSources_elem; eauto).
    apply list_elem_of_lookup in Hf0 as [i Hi].
    pose proof (lookup_lt_Some _ _ _ Hi) as Hlt.
    exists (set_id (idSource (drawn st + i)) f0), (drawn st + i)%nat.
    split; [|split; [lia|done]].
    apply elem_of_stamp. eauto.
  - eapply Forall2_impl; [by apply gameSources_draws|].
    intros entry f (item & k & Hi & Hty & Hk & Hf).
    exists item, k. split; [done|]. split; [done|]. split; [|done].
    simpl. rewrite Hsplit, length_app, (gameSources_length _ Hg). lia.
Qed.

(** X6: only class features have their level overwritten: a feat of any
    other type that a pack returns for the entries comes back as the pack
    holds it, and every result of another type than class feature is such
    a record of a pack. *)
Theorem getFromCompendium_other_feats_unchanged entries st feats st' :
  getFromCompendium entries st = (inr feats, st') ->
  (∀ pack d,
     pack ∈ entry_pack <$> entries ->
     d ∈ fetched entries pack ->
     featType (_source d) <> "classfeature" ->
     d ∈ feats) ∧
  (∀ f,
     f ∈ feats ->
     featType (_source f) <> "classfeature" ->
     ∃ p docs, packs game !! p = Some docs ∧ f ∈ docs).
Proof.
  intros (Hok & -> & _)%getFromCompendium_inr.
  assert (∀ d, featType (_source d) <> "classfeature" -> overridden entries d = d) as Hsame.
  { intros d Hft. unfold overridden. destruct (List.find _ entries); [|done].
    by rewrite bool_decide_eq_false_2. }
  split.
  - intros pack d Hpack Hd Hft. apply compendiumFeats_elem.
    exists pack, d. rewrite elem_of_js_Set. by rewrite Hsame.
  - intros f (pack & d & _ & Hd & ->)%compendiumFeats_elem Hft.
    rewrite overridden_featType in Hft. rewrite Hsame by done.
    apply fetched_elem in Hd as (p & docs & _ & Hdocs & Hd & _). eauto.
Qed.

(** ** New identities *)

Lemma NoDup_insert_fresh {A} (l : list A) i x :
  NoDup l -> x ∉ l -> NoDup (<[i:=x]> l).
Proof.
  intros Hnd Hx. destruct (l !! i) as [y|] eqn:Hi.
  - rewrite insert_take_drop by (by eapply lookup_lt_Some).
    rewrite <- (take_drop_middle l i y Hi) in Hnd, Hx.
    apply NoDup_app in Hnd as (Hn1 & Hdis & Hn2). apply NoDup_cons in Hn2 as [Hy Hn2].
    apply NoDup_app. split; [done|]. split.
    + intros z Hz [->|Hz2]%elem_of_cons.
      * apply Hx. apply elem_of_app. by left.
      * apply (Hdis z Hz). by right.
    + apply NoDup_cons. split; [|done]. intros Hin. apply Hx.
      apply elem_of_app. right. by right.
  - rewrite list_insert_ge; [done|]. by apply lookup_ge_None.
Qed.

Lemma distinctDraws_stamp n sources :
  (∀ i j, idSource i = idSource j -> i = j) ->
  distinctDraws n (n + length sources) (stamp n sources).
Proof.
  intros Hinj. split.
  - unfold stamp. rewrite fmap_imap.
    rewrite (imap_ext _ (fun i _ => idSource (n + i))) by done.
    rewrite (imap_seq sources idSource n).
    apply NoDup_fmap_2_strong; [|apply NoDup_seq]. intros ????. apply Hinj.
  - apply Forall_forall. intros f (i & s & Hs%lookup_lt_Some & ->)%elem_of_stamp.
    exists (n + i)%nat. split; [lia|done].
Qed.

Lemma distinctDraws_widen lo hi lo' hi' batch :
  (lo' <= lo)%nat -> (hi <= hi')%nat ->
  distinctDraws lo hi batch -> distinctDraws lo' hi' batch.
Proof.
  intros Hlo Hhi [Hnd HF]. split; [done|].
  eapply Forall_impl; [exact HF|]. intros i (k & Hk & Hid). exists k. split; [lia|done].
Qed.

Lemma distinctDraws_Permutation lo hi batch batch' :
  batch ≡ₚ batch' -> distinctDraws lo hi batch -> distinctDraws lo hi batch'.
Proof. intros Hp [Hnd HF]. split; by rewrite <- Hp. Qed.

Lemma distinctDraws_snoc lo hi batch item :
  (∀ i j, idSource i = idSource j -> i = j) ->
  (lo < hi)%nat ->
  distinctDraws (S lo) hi batch -> _id item = idSource lo ->
  distinctDraws lo hi (batch ++ [item]).
Proof.
  intros Hinj Hle [Hnd HF] Hid. split.
  - rewrite fmap_app. apply NoDup_app. split; [done|]. split; [|apply NoDup_singleton].
    intros x (i & -> & Hi)%list_elem_of_fmap Hx%list_elem_of_singleton.
    rewrite Forall_forall in HF. destruct (HF i Hi) as (k & Hk & Hik).
    rewrite Hid, Hik in Hx. apply Hinj in Hx. lia.
  - apply Forall_app. split.
    + eapply Forall_impl; [exact HF|]. intros i (k & Hk & Hik). exists k. split; [lia|done].
    + constructor; [|constructor]. exists lo. split; [lia|done].
Qed.

Lemma forM_substituteAssurance_draws lo skills batch st batch' st' :
  (∀ i j, idSource i = idSource j -> i = j) ->
  distinctDraws lo (drawn st) batch ->
  forM substituteAssurance skills batch st = (inr batch', st') ->
  distinctDraws lo (drawn st') batch' ∧ (drawn st <= drawn st')%nat.
Proof.
  intros Hinj. revert batch st.
  induction skills as [|skill skills IH]; intros batch st Hids Hrun; simpl in Hrun.
  - by injection Hrun as <- <-.
  - apply bind_inr in Hrun as (batch1 & st1 & Hstep & Hrest).
    apply substituteAssurance_inr in Hstep
      as [(Hfind & -> & ->)|(index & found & docs & doc & Hfind & _ & _ & -> & Hd & _)].
    + exact (IH _ _ Hids Hrest).
    + destruct Hids as [Hnd HF].
      assert (distinctDraws lo (drawn st1)
                (<[index := set_location (location found)
                              (set_id (idSource (drawn st)) (toObject doc))]> batch))
        as Hids1.
      { split.
        - rewrite list_fmap_insert. simpl. apply NoDup_insert_fresh; [done|].
          intros (i & Hi & Hin)%list_elem_of_fmap. rewrite Forall_forall in HF.
          destruct (HF i Hin) as (k & Hk & Hik). rewrite Hik in Hi.
          apply Hinj in Hi. lia.
        - apply Forall_insert.
          + eapply Forall_impl; [exact HF|]. intros i (k & Hk & Hik).
            exists k. split; [lia|done].
          + exists (drawn st). split; [|done].
            destruct HF as [|i l (k & Hk & _) _]; [|lia].
            by apply list_find_Some in Hfind as [? _]. }
      destruct (IH _ _ Hids1 Hrest) as [Hres Hle]. split; [done|lia].
Qed.

(** X7: the items an attach creates, the build item included, all carry
    identities drawn during the call, and no two of them the same one,
    when the generator never repeats itself: what was resolved from packs
    or the world under one identity leaves under as many identities as
    there are items. *)
Theorem addABCItem_new_identities source options st created st' :
  (∀ i j, idSource i = idSource j -> i = j) ->
  addABCItem source options st = (inr created, st') ->
  NoDup (_id <$> created) ∧
  Forall (fun item => ∃ k, (drawn st <= k < drawn st')%nat ∧ _id item = idSource k)
         created.
Proof.
  intros Hinj Hrun. change (distinctDraws (drawn st) (drawn st') created).
  destruct (decide (isABC (type source))) as [[Hty|[Hty|Hty]]|Hother].
  4: { by rewrite addABCItem_other in Hrun. }
  3: { rewrite addABCItem_class in Hrun by done.
       rewrite getClassFeaturesForLevel_unfold in Hrun.
       set (entries := window (classItem source st) 0 (actor_level (actor st))) in *.
       destruct (decide (resolvable entries)) as [Hok|Hno].
       2: { destruct (getFeatures_fail _ (_id (classItem source st)) (classStart st) Hno)
              as (e & n & sent & Hf & _). by rewrite Hf in Hrun. }
       rewrite getFeatures_ok in Hrun by done. injection Hrun as <- <-.
       set (sources := resolvedSources entries (idSource (drawn st))).
       unfold embed, classStart. simpl.
       replace (drawn st + 1)%nat with (S (drawn st)) by lia.
       apply distinctDraws_snoc; [done|lia| |done].
       eapply distinctDraws_Permutation; [symmetry; apply Array_sort_Permutation|].
       by apply distinctDraws_stamp. }
  all: rewrite addABCItem_ancestry_background in Hrun by auto;
    apply addFeatures_inr in Hrun as (st1 & st2 & _ & Hids & _ & Hloop & ->);
    simpl in *;
    set (sources := resolvedSources (Object_values (items source)) (idSource (drawn st)))
      in *;
    assert (distinctDraws (drawn st) (drawn st1)
              (set_id (idSource (drawn st)) source :: stamp (S (drawn st)) sources))
      as Hbatch.
  1,3: split;
    [ simpl; apply NoDup_cons; split;
      [ intros (f & Hf & (i & s & _ & ->)%elem_of_stamp)%list_elem_of_fmap;
        simpl in Hf; apply Hinj in Hf; lia
      | by destruct (distinctDraws_stamp (S (drawn st)) sources Hinj) ]
    | unfold drawnIds in Hids; apply Forall_forall; intros item Hitem;
      rewrite Forall_forall in Hids; destruct (Hids item Hitem) as (k & Hk & Hik);
      exists k; split; [|done]; split; [|done];
      apply elem_of_cons in Hitem as [->|(i & s & _ & ->)%elem_of_stamp];
      simpl in Hik; apply Hinj in Hik; lia ].
  all: destruct (options ≫= assurance) as [skills|];
    [ by destruct (forM_substituteAssurance_draws _ _ _ _ _ _ Hinj Hbatch Hloop)
    | by destruct Hloop as [-> ->] ].
Qed.

(** ** More on the synchronisation *)

(** X8: a synchronisation can only fail while it resolves the features of
    an upward step, with an error of the resolver, and then the character
    is as it was: nothing is attached or detached before the resolution
    has returned.  Downward and level steps never fail. *)
Theorem ensureClassFeaturesForLevel_failure_clean newLevel st e st' :
  ensureClassFeaturesForLevel newLevel st = (inl e, st') ->
  actor st' = actor st ∧
  newLevel > actor_level (actor st) ∧
  is_Some (itemOfType TyClass (actor st)) ∧
  resolverError e.
Proof.
  intros Hrun.
  destruct (itemOfType TyClass (actor st)) as [actorClass|] eqn:Hc.
  2: { by rewrite ensure_noClass in Hrun. }
  destruct (Z.lt_trichotomy newLevel (actor_level (actor st))) as [Hlt|[Heq|Hgt]].
  - by rewrite (ensure_down _ _ _ Hc Hlt) in Hrun.
  - subst newLevel. by rewrite ensure_same in Hrun.
  - rewrite (ensure_up _ _ _ Hc) in Hrun by lia.
    destruct (getClassFeaturesForLevel _ _ _ _) as [[e1|resolved] st1] eqn:Hres; [|done].
    injection Hrun as <- <-.
    pose proof (keepsActor_getClassFeaturesForLevel actorClass (actor_level (actor st))
                  newLevel st) as Hk.
    rewrite Hres in Hk. split; [done|]. split; [lia|]. split; [eauto|].
    by eapply throwsOnly_getClassFeaturesForLevel.
Qed.

Lemma filter_ext_elem {A} (P Q : A -> Prop) `{∀ x, Decision (P x)} `{∀ x, Decision (Q x)}
    (l : list A) :
  (∀ x, x ∈ l -> (P x ↔ Q x)) -> filter P l = filter Q l.
Proof.
  induction l as [|x l IH]; intros Hext; [done|].
  rewrite !filter_cons.
  rewrite IH by (intros y Hy; apply Hext; by right).
  destruct (decide (P x)) as [HP|HP], (decide (Q x)) as [HQ|HQ]; try done.
  - destruct HQ. by apply (Hext x); [left|].
  - destruct HP. by apply (Hext x); [left|].
Qed.

Lemma NoDup_fmap_elem_inj {A B} (f : A -> B) (l : list A) x y :
  NoDup (f <$> l) -> x ∈ l -> y ∈ l -> f x = f y -> x = y.
Proof.
  induction l as [|z l IH]; simpl; [by intros _ ?%elem_of_nil|].
  intros [Hz Hnd]%NoDup_cons [->|Hx]%elem_of_cons [->|Hy]%elem_of_cons Heq; try done.
  - destruct Hz. rewrite Heq. by apply list_elem_of_fmap_2.
  - destruct Hz. rewrite <- Heq. by apply list_elem_of_fmap_2.
  - by apply IH.
Qed.

(** X9: on a character whose items have pairwise distinct identities, a
    downward step removes exactly the class features above the new level:
    every other item stays, in its place, and the step sends no query,
    draws no identity and leaves the level alone. *)
Theorem ensureClassFeaturesForLevel_down_exact newLevel st :
  is_Some (itemOfType TyClass (actor st)) ->
  newLevel < actor_level (actor st) ->
  NoDup (_id <$> actor_items (actor st)) ->
  ∃ st',
    ensureClassFeaturesForLevel newLevel st = (inr tt, st') ∧
    drawn st' = drawn st ∧ queries st' = queries st ∧
    actor_level (actor st') = actor_level (actor st) ∧
    actor_items (actor st') =
      filter (fun i => ¬ (isClassFeature i ∧ level i > newLevel)) (actor_items (actor st)).
Proof.
  intros [actorClass Hc] Hlt Hnd. eexists. split; [by apply (ensure_down _ _ actorClass)|].
  split; [done|]. split; [done|]. split; [done|]. simpl.
  apply filter_ext_elem. intros i Hi. unfold toDelete, classFeatures. split.
  - intros Hnot [Hcf Hlv]. apply Hnot. apply list_elem_of_fmap_2.
    apply list_elem_of_filter. split; [done|]. by apply list_elem_of_filter.
  - intros Hnot (f & Hid & Hf)%list_elem_of_fmap.
    apply list_elem_of_filter in Hf as [Hlv Hf].
    apply list_elem_of_filter in Hf as [Hcf Hf].
    assert (i = f) as -> by (by eapply (NoDup_fmap_elem_inj _id)).
    by apply Hnot.
Qed.

(** X10: the synchronisation keeps the class features within the level:
    on a character whose class names a pack in every entry and whose class
    features are at most of the character's level, the class features are
    at most of the new level after the step, whichever way it goes. *)
Theorem ensureClassFeaturesForLevel_within_level newLevel st st' actorClass :
  itemOfType TyClass (actor st) = Some actorClass ->
  (∀ entry, entry ∈ Object_values (items actorClass) -> truthy (entry_pack entry)) ->
  Forall (fun f => level f <= actor_level (actor st)) (classFeatures (actor st)) ->
  ensureClassFeaturesForLevel newLevel st = (inr tt, st') ->
  Forall (fun f => level f <= newLevel) (classFeatures (actor st')).
Proof.
  intros Hc Hpacks Hlow Hrun.
  destruct (Z.lt_trichotomy newLevel (actor_level (actor st))) as [Hlt|[Heq|Hgt]].
  - rewrite (ensure_down _ _ _ Hc Hlt) in Hrun. injection Hrun as <-.
    apply Forall_forall. intros f Hf.
    unfold classFeatures, without in Hf. simpl in Hf.
    apply list_elem_of_filter in Hf as [Hcf Hf].
    apply list_elem_of_filter in Hf as [Hid Hf].
    destruct (decide (level f <= newLevel)) as [|Hlv]; [done|].
    destruct Hid. unfold toDelete. apply list_elem_of_fmap_2.
    apply list_elem_of_filter. split; [lia|].
    unfold classFeatures. by apply list_elem_of_filter.
  - subst newLevel. rewrite ensure_same in Hrun. by injection Hrun as <-.
  - destruct (ensure_up_inr newLevel st st' actorClass Hc ltac:(lia) Hrun) as [_ ->].
    rewrite classFeatures_resolved. apply Forall_app. split.
    + eapply Forall_impl; [exact Hlow|]. intros f Hf. simpl in Hf. lia.
    + apply Forall_forall. intros f [[_ Hft] Hf]%list_elem_of_filter.
      unfold toCreate in Hf. apply list_elem_of_filter in Hf as [_ Hf].
      pose proof (resolved_classFeature_level actorClass (actor_level (actor st))
                    newLevel _ f Hpacks Hf Hft). lia.
Qed.

(** ** One record of a kind *)

Lemma withoutItem_none_left ty a :
  (length (filter (fun i => type i = ty) (actor_items a)) <= 1)%nat ->
  filter (fun i => type i = ty) (actor_items (withoutItem ty a)) = [].
Proof.
  intros Hlen. apply filter_nil_Forall. apply Forall_forall. intros x Hx Hty.
  unfold withoutItem, itemOfType in Hx.
  destruct (List.find _ (actor_items a)) as [c|] eqn:Hfind.
  - apply find_some in Hfind as [Hc%list_elem_of_In Hcty%bool_decide_eq_true].
    simpl in Hx. apply list_elem_of_filter in Hx as [Hid Hx].
    assert (c ∈ filter (fun i => type i = ty) (actor_items a)) as Hc'
      by (by apply list_elem_of_filter).
    assert (x ∈ filter (fun i => type i = ty) (actor_items a)) as Hx'
      by (by apply list_elem_of_filter).
    destruct (filter _ (actor_items a)) as [|y [|z l]]; simpl in Hlen; [| |lia].
    + by apply elem_of_nil in Hc'.
    + apply list_elem_of_singleton in Hc', Hx'. subst. apply Hid. apply list_elem_of_here.
  - apply list_elem_of_In in Hx. pose proof (find_none _ _ Hfind _ Hx) as Hn.
    simpl in Hn. by apply bool_decide_eq_false in Hn.
Qed.

Lemma resolvedSources_feats entries locationId n :
  resolvable entries ->
  Forall (fun f => type f = TyFeat) (stamp n (resolvedSources entries locationId)).
Proof.
  intros [Hc Hg]. apply Forall_forall.
  intros f (i & s & Hs%list_elem_of_lookup_2 & ->)%elem_of_stamp. simpl.
  unfold resolvedSources in Hs. apply elem_of_app in Hs as [Hs|Hs].
  - apply list_elem_of_fmap in Hs as (d & -> & Hd). simpl.
    pose proof (compendiumFeats_feats _ Hc) as Hfeats. rewrite Forall_forall in Hfeats.
    by apply Hfeats.
  - apply list_elem_of_omap in Hs as (entry & He & Hs).
    rewrite Forall_forall in Hg. destruct (Hg entry He) as (item & Hitem & Hty).
    rewrite Hitem in Hs. simpl in Hs. by injection Hs as <-.
Qed.

Lemma filter_insert_irrelevant {A} (P : A -> Prop) `{∀ x, Decision (P x)}
    (l : list A) i x y :
  l !! i = Some y -> ¬ P y -> ¬ P x -> filter P (<[i:=x]> l) = filter P l.
Proof.
  intros Hi Hy Hx. rewrite insert_take_drop by (by eapply lookup_lt_Some).
  rewrite <- (take_drop_middle l i y Hi) at 3.
  rewrite !filter_app. f_equal. by rewrite !filter_cons_False.
Qed.

Lemma forM_substituteAssurance_keeps ty skills batch st batch' st' :
  ty <> TyFeat ->
  (∀ docs, packs game !! "pf2e.feats-srd" = Some docs ->
           Forall (fun d => type (_source d) = TyFeat) docs) ->
  Forall (fun i => slug i <> Some "assurance") (filter (fun i => type i = ty) batch) ->
  forM substituteAssurance skills batch st = (inr batch', st') ->
  filter (fun i => type i = ty) batch' = filter (fun i => type i = ty) batch.
Proof.
  intros Hty Hfeats. revert batch st.
  induction skills as [|skill skills IH]; intros batch st Hslug Hrun; simpl in Hrun.
  - by injection Hrun as <- <-.
  - apply bind_inr in Hrun as (batch1 & st1 & Hstep & Hrest).
    apply substituteAssurance_inr in Hstep
      as [(Hfind & -> & ->)|(index & found & docs & doc & Hfind & Hdocs & Hf & -> & _)].
    + by eapply IH.
    + apply list_find_Some in Hfind as (Hfound & Hfs & _).
      assert (filter (fun i => type i = ty)
                (<[index := set_location (location found)
                              (set_id (idSource (drawn st)) (toObject doc))]> batch)
              = filter (fun i => type i = ty) batch) as Hkeep.
      { eapply filter_insert_irrelevant; [exact Hfound| |].
        - intros HP. rewrite Forall_forall in Hslug. apply (Hslug found); [|done].
          apply list_elem_of_filter. split; [done|]. by eapply list_elem_of_lookup_2.
        - simpl. intros HP. apply Hty. rewrite <- HP.
          specialize (Hfeats docs Hdocs). rewrite Forall_forall in Hfeats.
          apply Hfeats.
          assert (doc ∈ [doc]) as Hin by apply list_elem_of_here.
          rewrite <- Hf in Hin. by apply list_elem_of_filter in Hin as [_ ?]. }
      rewrite <- Hkeep. eapply IH; [|exact Hrest]. by rewrite Hkeep.
Qed.

(** X11: a character who holds at most one record of a kind holds exactly
    one after a record of that kind was attached: the new one, under the
    identity drawn first.  For an ancestry or a background with assurance
    skills this needs the build item not to have the slug [assurance]
    itself, since the substitution looks through the whole batch, and the
    feats pack to hold feats only. *)
Theorem addABCItem_single_record source options st created st' :
  isABC (type source) ->
  (length (filter (fun i => type i = type source) (actor_items (actor st))) <= 1)%nat ->
  slug source <> Some "assurance" ->
  (∀ docs, packs game !! "pf2e.feats-srd" = Some docs ->
           Forall (fun d => type (_source d) = TyFeat) docs) ->
  addABCItem source options st = (inr created, st') ->
  ∃ item,
    filter (fun i => type i = type source) (actor_items (actor st')) = [item] ∧
    item ∈ created ∧
    _id item = idSource (drawn st) ∧
    name item = name source ∧ items item = items source.
Proof.
  intros Habc Hone Hslug Hfeats Hrun.
  pose proof (withoutItem_none_left _ _ Hone) as Hgone.
  destruct (decide (type source = TyClass)) as [Hty|Hty].
  - exists (classItem source st).
    destruct (addABCItem_class_inr _ _ _ _ _ Hty Hrun) as (Hok & _ & -> & ->).
    rewrite Hty in *. rewrite !filter_app, Hgone. simpl.
    rewrite (filter_nil_Forall (fun i => type i = TyClass) (Array_sort _ _)).
    + rewrite filter_cons_True by done. split; [done|]. split; [|done].
      apply elem_of_app. right. apply list_elem_of_here.
    + rewrite Array_sort_Permutation.
      eapply Forall_impl; [by apply resolvedSources_feats|].
      intros f Hf. simpl in Hf. by rewrite Hf.
  - assert (type source = TyAncestry ∨ type source = TyBackground) as Hab
      by (destruct Habc as [?|[?|?]]; auto; done).
    assert (type source <> TyFeat) as Hnf by (destruct Hab as [-> | ->]; done).
    exists (set_id (idSource (drawn st)) source).
    rewrite addABCItem_ancestry_background in Hrun by done.
    pose proof Hrun as Hinv.
    apply addFeatures_inr in Hinv as (st1 & st2 & Hres & _ & Hact & Hloop & ->).
    simpl in Hres, Hact, Hloop.
    set (sources := resolvedSources (Object_values (items source)) (idSource (drawn st)))
      in *.
    assert (resolvable (Object_values (items source))) as Hok.
    { destruct (decide (resolvable (Object_values (items source)))) as [|Hno]; [done|].
      destruct (getFeatures_fail _ (idSource (drawn st))
                  (addDrawn 1 (setActor (withoutItem (type source) (actor st)) st)) Hno)
        as (e & n & sent & Hf & _).
      rewrite Hf in Hres. done. }
    assert (filter (fun i => type i = type source)
              (set_id (idSource (drawn st)) source :: stamp (S (drawn st)) sources)
            = [set_id (idSource (drawn st)) source]) as Hbatch.
    { rewrite filter_cons_True by done. f_equal. apply filter_nil_Forall.
      eapply Forall_impl; [by apply (resolvedSources_feats _ _ _ Hok)|].
      intros f Hf. simpl in Hf. by rewrite Hf. }
    assert (filter (fun i => type i = type source) created
            = [set_id (idSource (drawn st)) source] ∧ actor st2 = actor st1) as [Hcr Hact2].
    { destruct (options ≫= assurance) as [skills|].
      - split.
        + rewrite <- Hbatch.
          eapply (forM_substituteAssurance_keeps (type source)); [done|done| |exact Hloop].
          rewrite Hbatch. by constructor.
        + pose proof (keepsActor_forM substituteAssurance skills
                        (set_id (idSource (drawn st)) source
                           :: stamp (S (drawn st)) sources)
                        keepsActor_substituteAssurance st1) as Hk.
          by rewrite Hloop in Hk.
      - by destruct Hloop as [-> ->]. }
    split.
    + simpl. rewrite Hact2, Hact. simpl. rewrite filter_app, Hgone, Hcr. done.
    + split; [|done].
      assert (set_id (idSource (drawn st)) source ∈
              filter (fun i => type i = type source) created) as Hin
        by (rewrite Hcr; apply list_elem_of_here).
      by apply list_elem_of_filter in Hin as [_ ?].
Qed.

(** ** Counting the substitutions *)

Lemma filter_insert_removes {A} (P : A -> Prop) `{∀ x, Decision (P x)}
    (l : list A) i x y :
  l !! i = Some y -> P y -> ¬ P x ->
  S (length (filter P (<[i:=x]> l))) = length (filter P l).
Proof.
  intros Hi Hy Hx. rewrite insert_take_drop by (by eapply lookup_lt_Some).
  rewrite <- (take_drop_middle l i y Hi) at 3.
  rewrite !filter_app, !length_app.
  rewrite filter_cons_False by done. rewrite (filter_cons_True P y) by done.
  simpl. lia.
Qed.

Lemma forM_substituteAssurance_count skills batch st batch' st' :
  Forall (fun skill => sluggify ("Assurance (" +:+ skill +:+ ")") <> "assurance") skills ->
  forM substituteAssurance skills batch st = (inr batch', st') ->
  assuranceCount batch' = (assuranceCount batch - length skills)%nat ∧
  length batch' = length batch.
Proof.
  intros Hslugs. revert batch st.
  induction Hslugs as [|skill skills Hslug _ IH]; intros batch st Hrun; simpl in Hrun.
  - injection Hrun as <- <-. simpl. split; [lia|done].
  - apply bind_inr in Hrun as (batch1 & st1 & Hstep & Hrest).
    apply substituteAssurance_inr in Hstep
      as [(Hfind & -> & ->)|(index & found & docs & doc & Hfind & Hdocs & Hf & -> & _)].
    + destruct (IH _ _ Hrest) as [Hc Hl]. split; [|done].
      assert (assuranceCount batch = 0%nat) as Hzero.
      { unfold assuranceCount. rewrite filter_nil_Forall; [done|].
        by apply (proj1 (list_find_None _ _)). }
      rewrite Hc, Hzero. simpl. lia.
    + destruct (IH _ _ Hrest) as [Hc Hl]. rewrite Hc, Hl, length_insert.
      split; [|done].
      apply list_find_Some in Hfind as (Hfound & Hfs & _).
      assert (S (assuranceCount
                   (<[index := set_location (location found)
                                 (set_id (idSource (drawn st)) (toObject doc))]> batch))
              = assuranceCount batch) as Hless.
      { unfold assuranceCount. eapply filter_insert_removes; [exact Hfound|done|].
        simpl. assert (doc ∈ [doc]) as Hin by apply list_elem_of_here.
        rewrite <- Hf in Hin. apply list_elem_of_filter in Hin as [Hm _].
        apply matches_in_singleton in Hm. unfold toObject. rewrite Hm.
        intros [= Heq]. by apply Hslug. }
      simpl. lia.
Qed.

(** X12: each assurance skill uses up one assurance feat of the batch.
    When no variant asked for has the slug [assurance] itself, the attached batch
    holds as many items of that slug as the resolved batch held, less the
    number of skills, and none when the skills are more: surplus skills are
    passed over, surplus assurance feats are attached as they are.  The
    batch keeps its length. *)
Theorem addABCItem_assurance_count source options skills st created st' :
  Forall (fun skill => sluggify ("Assurance (" +:+ skill +:+ ")") <> "assurance") skills ->
  type source = TyAncestry ∨ type source = TyBackground ->
  options ≫= assurance = Some skills ->
  addABCItem source options st = (inr created, st') ->
  ∃ features,
    (getFeatures (Object_values (items source)) (idSource (drawn st))
       (addDrawn 1 (setActor (withoutItem (type source) (actor st)) st))).1
      = inr features ∧
    assuranceCount created =
      (assuranceCount (set_id (idSource (drawn st)) source :: features)
       - length skills)%nat ∧
    length created = S (length features).
Proof.
  intros Hslug Hty Hopt Hrun.
  rewrite addABCItem_ancestry_background in Hrun by done.
  apply addFeatures_inr in Hrun as (st1 & st2 & Hres & _ & _ & Hloop & ->).
  rewrite Hopt in Hloop. simpl in *.
  destruct (forM_substituteAssurance_count _ _ _ _ _ Hslug Hloop) as [Hc Hl].
  eexists. split; [exact Hres|]. by split.
Qed.

(** ** The comparator *)

Lemma String_compare_refl s : String.compare s s = Eq.
Proof.
  pose proof (String.compare_antisym s s) as H.
  by destruct (String.compare s s).
Qed.

(** X13: the comparator of the class branch never answers 0.  On two
    features that differ in level or name it is antisymmetric; on two
    features of the same level and name it answers -1 whichever way they
    are passed. *)
Theorem compareFeatures_never_zero a b :
  (compareFeatures a b = -1 ∨ compareFeatures a b = 1) ∧
  ((level a, name a) <> (level b, name b) ->
   compareFeatures b a = - compareFeatures a b) ∧
  ((level a, name a) = (level b, name b) ->
   compareFeatures a b = -1 ∧ compareFeatures b a = -1).
Proof.
  unfold compareFeatures, str_gt. split; [|split].
  - repeat case_bool_decide; destruct (String.compare (name a) (name b)); auto.
  - intros Hne. rewrite (String.compare_antisym (name b) (name a)).
    repeat case_bool_decide; try lia.
    destruct (String.compare (name a) (name b)) eqn:Hcmp; simpl; try done.
    apply String.compare_eq_iff in Hcmp. destruct Hne. congruence.
  - intros [= Hl Hn]. rewrite Hl, Hn, String_compare_refl.
    repeat case_bool_decide; try lia; done.
Qed.

(** ** The class item *)


(** ** Adjacent windows *)

(** X15: the entries unlocked between two levels are those unlocked up to
    a level in between together with those unlocked from there on, and no
    entry is unlocked on both sides: stepping through the levels selects
    what one step selects. *)
Theorem window_split classSource minLevel midLevel actorLevel :
  minLevel <= midLevel <= actorLevel ->
  window classSource minLevel actorLevel ≡ₚ
    window classSource minLevel midLevel ++ window classSource midLevel actorLevel ∧
  ∀ entry, entry ∈ window classSource minLevel midLevel ->
           entry ∉ window classSource midLevel actorLevel.
Proof.
  intros Hmid. split.
  - unfold window. induction (Object_values (items classSource)) as [|e l IH]; [done|].
    rewrite !filter_cons. unfold inWindow in *.
    destruct (decide (actorLevel >= entry_level e ∧ entry_level e > minLevel)) as [H1|H1];
      destruct (decide (midLevel >= entry_level e ∧ entry_level e > minLevel)) as [H2|H2];
      destruct (decide (actorLevel >= entry_level e ∧ entry_level e > midLevel)) as [H3|H3];
      try lia.
    + simpl. by rewrite IH.
    + rewrite IH. apply Permutation_middle.
    + done.
  - intros entry [_ H1]%elem_of_window [_ H2]%elem_of_window. lia.
Qed.

End Manager.

(** ** The worked examples *)

Lemma Demo_idSource_inj i j : Demo.idSource i = Demo.idSource j -> i = j.
Proof. unfold Demo.idSource. intros [= H]. by apply (inj pretty). Qed.

Lemma Demo_idSource_fresh (ids : list string) k :
  Forall (fun i => String.prefix "id" i = false) ids -> Demo.idSource k ∉ ids.
Proof.
  intros Hids Hin. rewrite Forall_forall in Hids. specialize (Hids _ Hin).
  unfold Demo.idSource in Hids. simpl in Hids. by destruct (pretty k).
Qed.

(** C1, the claim as stated fails: a class with an entry of level 0 and an
    entry of level 1 for a world item of level 5, attached at level 1.  The
    attached class feature has level 5, and the entry of level 0, which is
    inside [0, 1], has no feature attached. *)
Lemma addABCItem_class_level_window_counterexample :
  ∃ created st',
    addABCItem Demo.derive Demo.sluggify Demo.idSource Demo.levelGame
      Demo.levelClass None Demo.noItems = (inr created, st') ∧
    actor_level (actor Demo.noItems) = 1 ∧
    (∃ f, f ∈ created ∧ isClassFeature f ∧ ¬ level f <= 1) ∧
    (∃ entry,
       entry ∈ Object_values (items Demo.levelClass) ∧ 0 <= entry_level entry <= 1 ∧
       ∀ f f0,
         f ∈ created ->
         resolution Demo.derive Demo.levelGame
           (filter (fun e => 0 <= entry_level e <= 1) (Object_values (items Demo.levelClass)))
           "id0" entry f0 ->
         ¬ reidentified f f0).
Proof.
  eexists _, _. split; [vm_compute; reflexivity|]. split; [done|]. split.
  - eexists. split; [apply list_elem_of_here|]. split; [done|]. simpl. lia.
  - exists (mkEntry "z" (Some "pf2e.classfeatures") 0). split; [apply list_elem_of_here|].
    split; [simpl; lia|].
    intros f f0 Hf Hres Hre.
    assert (name f0 = "Attunement") as Hname.
    { inversion Hres as [e p docs d Hp Hne Hdocs Hd Hid|e item Hnt Hitem]; subst.
      - simpl in Hp. injection Hp as <-. vm_compute in Hdocs. injection Hdocs as <-.
        apply list_elem_of_singleton in Hd as ->. done.
      - simpl in Hnt. done. }
    unfold reidentified in Hre. rewrite Hre in Hf. 
    apply elem_of_cons in Hf as [Hf|Hf].
    + apply (f_equal name) in Hf. simpl in Hf. congruence.
    + apply list_elem_of_singleton in Hf. apply (f_equal name) in Hf. simpl in Hf. congruence.
Qed.

(** C1 on the ordering example: the three class features attached at level
    3 have levels in (0, 3]. *)
Lemma addABCItem_class_level_window_witness :
  ∃ features,
    (addABCItem Demo.derive Demo.sluggify Demo.idSource Demo.orderingGame
       Demo.orderingClass None Demo.orderingStart).1
      = inr (features ++ [classItem Demo.idSource Demo.orderingClass Demo.orderingStart]) ∧
    ∀ f, f ∈ features -> featType f = "classfeature" -> 0 < level f <= 3.
Proof.
  destruct (addABCItem_class_level_window Demo.derive Demo.sluggify Demo.idSource
              Demo.orderingGame Demo.orderingClass None Demo.orderingStart
              (Array_sort compareFeatures
                 (stamp Demo.idSource 1
                    (resolvedSources Demo.derive Demo.orderingGame
                       (window Demo.orderingClass 0 3) "id0"))
               ++ [classItem Demo.idSource Demo.orderingClass Demo.orderingStart])
              (addABCItem Demo.derive Demo.sluggify Demo.idSource Demo.orderingGame
                 Demo.orderingClass None Demo.orderingStart).2
              eq_refl ltac:(vm_compute; reflexivity))
    as (features & Hcreated & _ & _ & Hsound & _).
  exists features. split.
  - rewrite <- Hcreated. vm_compute. reflexivity.
  - intros f Hf Hft.
    destruct (Hsound f Hf) as (entry & f0 & k & Hin & _ & _ & _ & _ & Hlv).
    apply Hlv; [|done].
    simpl in Hin.
    repeat (apply elem_of_cons in Hin as [->|Hin]; [done|]).
    by apply elem_of_nil in Hin.
Defined.

(** C2, the example of the claim fails: the entries of levels 3, 1, 1 for
    Zeta, Beta and Alpha attach as Alpha(1), Beta(1), Zeta(3) and then the
    class, not with Beta before Alpha. *)
Lemma addABCItem_class_sorted_counterexample :
  ∃ created st',
    addABCItem Demo.derive Demo.sluggify Demo.idSource Demo.orderingGame
      Demo.orderingClass None Demo.orderingStart = (inr created, st') ∧
    (fun f => (name f, level f)) <$> created
      = [("Alpha", 1); ("Beta", 1); ("Zeta", 3); ("Fighter", 0)] ∧
    (fun f => (name f, level f)) <$> take 3 created
      <> [("Beta", 1); ("Alpha", 1); ("Zeta", 3)].
Proof.
  eexists _, _. split; [vm_compute; reflexivity|]. split; [reflexivity|].
  simpl. discriminate.
Qed.

(** C2 on the ordering example. *)
Lemma addABCItem_class_sorted_witness :
  ∃ features,
    (addABCItem Demo.derive Demo.sluggify Demo.idSource Demo.orderingGame
       Demo.orderingClass None Demo.orderingStart).1
      = inr (features ++ [classItem Demo.idSource Demo.orderingClass Demo.orderingStart]) ∧
    StronglySorted featureLe features.
Proof.
  destruct (addABCItem_class_sorted Demo.derive Demo.sluggify Demo.idSource
              Demo.orderingGame Demo.orderingClass None Demo.orderingStart
              (Array_sort compareFeatures
                 (stamp Demo.idSource 1
                    (resolvedSources Demo.derive Demo.orderingGame
                       (window Demo.orderingClass 0 3) "id0"))
               ++ [classItem Demo.idSource Demo.orderingClass Demo.orderingStart])
              (addABCItem Demo.derive Demo.sluggify Demo.idSource Demo.orderingGame
                 Demo.orderingClass None Demo.orderingStart).2
              eq_refl ltac:(vm_compute; reflexivity))
    as [(resolved & features & _ & Hcreated & _ & Hsorted) _].
  exists features. split; [|done].
  rewrite <- Hcreated. vm_compute. reflexivity.
Defined.

(** C3 on the progression example: level 5 twice; the second call attaches
    nothing. *)
Lemma ensureClassFeaturesForLevel_idempotent_witness :
  let st1 := (ensureClassFeaturesForLevel Demo.derive Demo.idSource Demo.progressionGame 5
                Demo.progressionStart).2 in
  ∃ st2,
    ensureClassFeaturesForLevel Demo.derive Demo.idSource Demo.progressionGame 5 st1
      = (inr tt, st2) ∧
    actor_items (actor st2) = actor_items (actor st1) ∧
    classFeatures (actor st2) = classFeatures (actor st1).
Proof.
  intros st1.
  destruct (ensureClassFeaturesForLevel_idempotent Demo.derive Demo.idSource
              Demo.progressionGame 5 Demo.progressionStart st1
              ltac:(vm_compute; reflexivity))
    as (st2 & again & Hrun & Hitems & Hnot & Hcf & _).
  exists st2. split; [exact Hrun|]. split; [|exact Hcf].
  assert (again = []) as ->; [|by rewrite app_nil_r in Hitems].
  assert (st2 = (ensureClassFeaturesForLevel Demo.derive Demo.idSource
                   Demo.progressionGame 5 st1).2) as -> by (by rewrite Hrun).
  revert Hitems. vm_compute. intros Hitems.
  repeat (injection Hitems as _ Hitems). by destruct again.
Defined.

(** C3, the claim as stated fails: for a class whose entry of level 2 names
    a general feat, synchronising a character of level 1 to level 2 twice
    attaches the feat twice, the second call finding it to add again. *)
Lemma ensureClassFeaturesForLevel_idempotent_counterexample :
  ∃ st1 st2,
    ensureClassFeaturesForLevel Demo.derive Demo.idSource Demo.trainingGame 2
      Demo.trainingStart = (inr tt, st1) ∧
    ensureClassFeaturesForLevel Demo.derive Demo.idSource Demo.trainingGame 2 st1
      = (inr tt, st2) ∧
    name <$> actor_items (actor st1) = ["Fighter"; "Shield Block"] ∧
    name <$> actor_items (actor st2) = ["Fighter"; "Shield Block"; "Shield Block"] ∧
    actor_items (actor st2) ≠ actor_items (actor st1).
Proof.
  eexists _, _. split; [vm_compute; reflexivity|].
  split; [vm_compute; reflexivity|].
  split; [vm_compute; reflexivity|].
  split; [vm_compute; reflexivity|].
  vm_compute. discriminate.
Qed.

(** C5 on the ordering example: Zeta, of level 7 in the pack, comes back
    with the level 3 of its entry, in its source and in its derived data. *)
Lemma getFromCompendium_level_override_witness :
  let f := mkItem (mkSource "a" "Zeta" TyFeat None "classfeature" 3 None (Some "a") [] None)
                  3 in
  f ∈ compendiumFeats Demo.derive Demo.orderingGame
        (Object_values (items Demo.orderingClass)) ∧
  ∃ entry,
    List.find (fun e => bool_decide (entry_id e = _id (_source f)))
      (Object_values (items Demo.orderingClass)) = Some entry ∧
    level (toObject f) = entry_level entry ∧
    data f = Demo.derive (_source f).
Proof.
  intros f.
  assert (f ∈ compendiumFeats Demo.derive Demo.orderingGame
                (Object_values (items Demo.orderingClass))) as Hf
    by (vm_compute; apply list_elem_of_here).
  split; [exact Hf|].
  apply (proj2 (getFromCompendium_level_override Demo.derive Demo.orderingGame
                  (Object_values (items Demo.orderingClass)) Demo.orderingStart
                  (compendiumFeats Demo.derive Demo.orderingGame
                     (Object_values (items Demo.orderingClass)))
                  (getFromCompendium Demo.derive Demo.orderingGame
                     (Object_values (items Demo.orderingClass)) Demo.orderingStart).2
                  ltac:(vm_compute; reflexivity)) f Hf).
  reflexivity.
Defined.

(** C7, the claim as stated fails: the character stays at level 1 through
    both calls, so the second call, to level 1, finds the level unchanged
    and detaches nothing; the features of levels 2, 3 and 5 stay. *)
Lemma ensure_up_then_down_counterexample :
  ∃ st1 st2,
    ensureClassFeaturesForLevel Demo.derive Demo.idSource Demo.progressionGame 5
      Demo.progressionStart = (inr tt, st1) ∧
    ensureClassFeaturesForLevel Demo.derive Demo.idSource Demo.progressionGame 1 st1
      = (inr tt, st2) ∧
    level <$> classFeatures (actor Demo.progressionStart) = [1] ∧
    level <$> classFeatures (actor st2) = [1; 2; 3; 5] ∧
    ¬ Forall (fun f => level f <= 1) (classFeatures (actor st2)).
Proof.
  eexists _, _. split; [vm_compute; reflexivity|]. split; [vm_compute; reflexivity|].
  split; [reflexivity|]. split; [reflexivity|].
  intros Hall. vm_compute in Hall.
  inversion Hall as [|? ? _ Htail]. inversion Htail as [|? ? Hsecond _].
  by apply Hsecond.
Qed.

(** C7 on the progression example, the level recorded between the calls. *)
Lemma ensure_up_then_down_witness :
  classFeatures
    (actor (ensureClassFeaturesForLevel Demo.derive Demo.idSource Demo.progressionGame 1
              (setActorLevel 5
                 (ensureClassFeaturesForLevel Demo.derive Demo.idSource
                    Demo.progressionGame 5 Demo.progressionStart).2)).2)
  = classFeatures (actor Demo.progressionStart).
Proof.
  refine (proj1 (proj2 (ensure_up_then_down Demo.derive Demo.idSource Demo.progressionGame
            5 Demo.progressionStart
            (ensureClassFeaturesForLevel Demo.derive Demo.idSource Demo.progressionGame 5
               Demo.progressionStart).2
            _ Demo.progressionClass
            (ensureClassFeaturesForLevel Demo.derive Demo.idSource Demo.progressionGame 1
               (setActorLevel 5
                  (ensureClassFeaturesForLevel Demo.derive Demo.idSource
                     Demo.progressionGame 5 Demo.progressionStart).2)).1
            eq_refl _ _ _ _ _ _))).
  - intros entry Hin. simpl in Hin.
    repeat (apply elem_of_cons in Hin as [->|Hin]; [done|]).
    by apply elem_of_nil in Hin.
  - repeat constructor. simpl. lia.
  - intros k _. apply Demo_idSource_fresh. by repeat constructor.
  - simpl. lia.
  - vm_compute. reflexivity.
  - apply surjective_pairing.
Defined.


(** C6 on five entries of one pack and two of another: two queries. *)
Example getFeatures_two_packs_two_queries :
  queries (getFeatures Demo.derive Demo.idSource Demo.batchGame Demo.batchEntries
             "loc" Demo.noItems).2
  = [QueryIds "feats-srd" ["s1"; "s2"; "s3"; "s4"; "s5"];
     QueryIds "feats-extra" ["x1"; "x2"]].
Proof. vm_compute. reflexivity. Qed.

(** C8, on a pack record of the wrong shape: an entry names an item of a
    pack that is not a feat.  The resolver fails, and nothing is attached,
    but the failure is the [TypeError] of reading [featType.value] in
    [getFromCompendium], before [getFeatures] reaches its own check and
    its "Invalid item type referenced" error. *)
Theorem getFeatures_wrong_shape_in_pack :
  (getFeatures Demo.derive Demo.idSource Demo.wrongShapeGame Demo.wrongShapeEntries
     "loc" Demo.noItems).1 = inl TypeError ∧
  (addABCItem Demo.derive Demo.sluggify Demo.idSource Demo.wrongShapeGame
     Demo.wrongShapeAncestry None Demo.noItems).1 = inl TypeError ∧
  actor_items
    (actor (addABCItem Demo.derive Demo.sluggify Demo.idSource Demo.wrongShapeGame
              Demo.wrongShapeAncestry None Demo.noItems).2) = [].
Proof. split; [|split]; vm_compute; reflexivity. Qed.

(** C9 on a character whose attached class feature records no source. *)
Lemma ensure_upward_absent_sourceId_witness :
  ∃ resolved added,
    (getClassFeaturesForLevel Demo.derive Demo.idSource Demo.unrecordedGame
       Demo.unrecordedClass 1 2 Demo.unrecordedStart).1 = inr resolved ∧
    actor_items
      (actor (ensureClassFeaturesForLevel Demo.derive Demo.idSource Demo.unrecordedGame 2
                Demo.unrecordedStart).2)
    = actor_items (actor Demo.unrecordedStart) ++ added ∧
    (∀ feature, feature ∈ resolved ->
       (feature ∉ added ↔
        ∃ cf, cf ∈ classFeatures (actor Demo.unrecordedStart) ∧
              sourceId cf = sourceId feature)) ∧
    (∀ feature, feature ∈ resolved -> sourceId feature = None ->
       (feature ∉ added ↔
        ∃ cf, cf ∈ classFeatures (actor Demo.unrecordedStart) ∧ sourceId cf = None)).
Proof.
  apply (ensure_upward_absent_sourceId Demo.derive Demo.idSource Demo.unrecordedGame 2
           Demo.unrecordedStart _ Demo.unrecordedClass eq_refl).
  - simpl. lia.
  - vm_compute. reflexivity.
Defined.

(** C10 on a batch without the assurance feat. *)
Lemma substituteAssurance_skip_witness :
  substituteAssurance Demo.sluggify Demo.idSource Demo.assuranceGame
    [Demo.plainAncestry] "Stealth" Demo.noItems
  = (inr [Demo.plainAncestry], Demo.noItems).
Proof.
  apply (substituteAssurance_skip Demo.sluggify Demo.idSource Demo.assuranceGame
           [Demo.plainAncestry] "Stealth" Demo.noItems).
  vm_compute. reflexivity.
Defined.

(** ** Further worked examples *)

(** X1 on a feat handed to [addABCItem] for a character who holds an
    ancestry, and on the ancestry whose entry names an item that is not a
    feat. *)
Lemma addABCItem_error_kinds_witness :
  addABCItem Demo.derive Demo.sluggify Demo.idSource Demo.wrongShapeGame
    (Demo.attachedFeature "x1" "First" 1 (Some "f1")) None Demo.ancestryHolder
  = (inl InvalidItemType, Demo.ancestryHolder) ∧
  (addABCItem Demo.derive Demo.sluggify Demo.idSource Demo.wrongShapeGame
     Demo.wrongShapeAncestry None Demo.noItems).1 = inl TypeError ∧
  attachError TypeError.
Proof.
  split; [|split].
  - apply (addABCItem_error_kinds Demo.derive Demo.sluggify Demo.idSource
             Demo.wrongShapeGame (Demo.attachedFeature "x1" "First" 1 (Some "f1"))
             None Demo.ancestryHolder).
    intros [H|[H|H]]; discriminate H.
  - vm_compute. reflexivity.
  - apply (addABCItem_error_kinds Demo.derive Demo.sluggify Demo.idSource
             Demo.wrongShapeGame Demo.wrongShapeAncestry None Demo.noItems)
      with (st' := (addABCItem Demo.derive Demo.sluggify Demo.idSource Demo.wrongShapeGame
                      Demo.wrongShapeAncestry None Demo.noItems).2).
    + by left.
    + vm_compute. reflexivity.
Defined.

(** X2 on a character who holds an ancestry when the attach fails. *)
Lemma addABCItem_failure_detached_witness :
  actor (addABCItem Demo.derive Demo.sluggify Demo.idSource Demo.wrongShapeGame
           Demo.wrongShapeAncestry None Demo.ancestryHolder).2
  = withoutItem TyAncestry (actor Demo.ancestryHolder).
Proof.
  apply (addABCItem_failure_detached Demo.derive Demo.sluggify Demo.idSource
           Demo.wrongShapeGame Demo.wrongShapeAncestry None Demo.ancestryHolder
           TypeError).
  - by left.
  - vm_compute. reflexivity.
Defined.

(** X3 on the variant for Stealth. *)
Lemma getItemSource_unique_witness :
  slug (mkSource "ast" "Assurance (Stealth)" TyFeat (Some "assurance-stealth") "skill" 1
          None (Some "ast") [] None)
  = Some (Demo.sluggify "Assurance (Stealth)") ∧
  ∃ docs,
    packs Demo.assuranceGame !! "pf2e.feats-srd" = Some docs ∧
    (∃ doc, doc ∈ docs ∧
            mkSource "ast" "Assurance (Stealth)" TyFeat (Some "assurance-stealth") "skill" 1
              None (Some "ast") [] None = toObject doc) ∧
    length (filter (fun d => slug (_source d)
                             = Some (Demo.sluggify "Assurance (Stealth)")) docs) = 1%nat.
Proof.
  apply (getItemSource_unique Demo.sluggify Demo.assuranceGame "pf2e.feats-srd"
           "Assurance (Stealth)" Demo.noItems _
           (getItemSource Demo.sluggify Demo.assuranceGame "pf2e.feats-srd"
              "Assurance (Stealth)" Demo.noItems).2).
  vm_compute. reflexivity.
Defined.

(** X4 on a variant the feats pack does not hold. *)
Lemma getItemSource_not_unique_witness :
  getItemSource Demo.sluggify Demo.assuranceGame "pf2e.feats-srd" "Assurance (Arcana)"
    Demo.noItems
  = (inl (CannotFind "Assurance (Arcana)" "pf2e.feats-srd"),
     addQueries [QuerySlug "pf2e.feats-srd" [Demo.sluggify "Assurance (Arcana)"]]
       Demo.noItems).
Proof.
  eapply (getItemSource_not_unique Demo.sluggify Demo.assuranceGame "pf2e.feats-srd"
            "Assurance (Arcana)").
  - vm_compute. reflexivity.
  - vm_compute. discriminate.
Defined.

(** X5 on an entry of a pack and an entry of the world: the feature of the
    pack comes first, with the location and the first identity drawn; the
    world item follows, as it is, under the second. *)
Lemma getFeatures_packs_then_world_witness :
  let run := getFeatures Demo.derive Demo.idSource Demo.levelGame
               (Object_values (items Demo.levelClass)) "loc" Demo.noItems in
  run.1 = inr [mkSource "id0" "Attunement" TyFeat None "classfeature" 0 (Some "loc")
                 (Some "z") [] None;
               mkSource "id1" "Homebrew" TyFeat None "classfeature" 5 None
                 (Some "g") [] None] ∧
  ∃ fromPacks fromWorld,
    run.1 = inr (fromPacks ++ fromWorld) ∧
    fromPacks = [mkSource "id0" "Attunement" TyFeat None "classfeature" 0 (Some "loc")
                   (Some "z") [] None] ∧
    length fromWorld = 1%nat.
Proof.
  intros run. split; [vm_compute; reflexivity|].
  destruct (getFeatures_packs_then_world Demo.derive Demo.idSource Demo.levelGame
              (Object_values (items Demo.levelClass)) "loc" Demo.noItems
              (stamp Demo.idSource 0
                 (resolvedSources Demo.derive Demo.levelGame
                    (Object_values (items Demo.levelClass)) "loc"))
              run.2 ltac:(vm_compute; reflexivity))
    as (fromPacks & fromWorld & Hfeats & _ & _ & HfromPacks & _ & _ & _ & Hworld).
  exists fromPacks, fromWorld. split; [|split].
  - rewrite <- Hfeats. vm_compute. reflexivity.
  - rewrite HfromPacks. vm_compute. reflexivity.
  - apply Forall2_length in Hworld. rewrite <- Hworld. vm_compute. reflexivity.
Defined.

(** X6 on the feats of an ancestry, none of them a class feature. *)
Lemma getFromCompendium_other_feats_unchanged_witness :
  Demo.featDoc "kn" "Keen Eyes" "ancestryfeature" (Some "keen-eyes") 0 (Some "kn")
    ∈ compendiumFeats Demo.derive Demo.assuranceGame
        (Object_values (items Demo.assuranceAncestry)).
Proof.
  refine (proj1 (getFromCompendium_other_feats_unchanged Demo.derive Demo.assuranceGame
                   (Object_values (items Demo.assuranceAncestry)) Demo.noItems _
                   (getFromCompendium Demo.derive Demo.assuranceGame
                      (Object_values (items Demo.assuranceAncestry)) Demo.noItems).2
                   _)
                (Some "pf2e.feats-srd") _ _ _ _).
  - vm_compute. reflexivity.
  - apply list_elem_of_here.
  - vm_compute. apply list_elem_of_further, list_elem_of_here.
  - simpl. discriminate.
Defined.

(** X7 on the assurance example. *)
Lemma addABCItem_new_identities_witness :
  let created :=
    [set_id "id0" Demo.assuranceAncestry;
     mkSource "id3" "Assurance (Stealth)" TyFeat (Some "assurance-stealth") "skill" 1
              (Some "id0") (Some "ast") [] None;
     mkSource "id2" "Keen Eyes" TyFeat (Some "keen-eyes") "ancestryfeature" 0
              (Some "id0") (Some "kn") [] None] in
  NoDup (_id <$> created) ∧
  Forall (fun item =>
            ∃ k, (drawn Demo.noItems <= k <
                  drawn (addABCItem Demo.derive Demo.sluggify Demo.idSource
                           Demo.assuranceGame Demo.assuranceAncestry
                           (Some (mkOptions (Some ["Stealth"]))) Demo.noItems).2)%nat ∧
                 _id item = Demo.idSource k)
         created.
Proof.
  intros created.
  apply (addABCItem_new_identities Demo.derive Demo.sluggify Demo.idSource
           Demo.assuranceGame Demo.assuranceAncestry
           (Some (mkOptions (Some ["Stealth"]))) Demo.noItems created
           (addABCItem Demo.derive Demo.sluggify Demo.idSource Demo.assuranceGame
              Demo.assuranceAncestry (Some (mkOptions (Some ["Stealth"])))
              Demo.noItems).2 Demo_idSource_inj).
  vm_compute. reflexivity.
Defined.

(** X8 on the class whose entry of level 2 names an item that is not a
    feat. *)
Lemma ensureClassFeaturesForLevel_failure_clean_witness :
  actor (ensureClassFeaturesForLevel Demo.derive Demo.idSource Demo.wrongShapeGame 2
           Demo.brokenStart).2 = actor Demo.brokenStart ∧
  2 > actor_level (actor Demo.brokenStart) ∧
  is_Some (itemOfType TyClass (actor Demo.brokenStart)) ∧
  resolverError TypeError.
Proof.
  apply (ensureClassFeaturesForLevel_failure_clean Demo.derive Demo.idSource
           Demo.wrongShapeGame 2 Demo.brokenStart TypeError).
  vm_compute. reflexivity.
Defined.

(** X9 on the character of level 5, down to level 2: the class features of
    the levels 3 and 5 go, the feat of level 4 stays. *)
Lemma ensureClassFeaturesForLevel_down_exact_witness :
  ∃ st',
    ensureClassFeaturesForLevel Demo.derive Demo.idSource Demo.progressionGame 2
      Demo.levelledStart = (inr tt, st') ∧
    drawn st' = drawn Demo.levelledStart ∧ queries st' = queries Demo.levelledStart ∧
    actor_level (actor st') = actor_level (actor Demo.levelledStart) ∧
    actor_items (actor st') =
      filter (fun i => ¬ (isClassFeature i ∧ level i > 2))
             (actor_items (actor Demo.levelledStart)).
Proof.
  apply (ensureClassFeaturesForLevel_down_exact Demo.derive Demo.idSource
           Demo.progressionGame 2 Demo.levelledStart).
  - eexists. reflexivity.
  - simpl. lia.
  - apply (bool_decide_unpack _). vm_compute. exact I.
Defined.

(** X10 on the progression example, up to level 3. *)
Lemma ensureClassFeaturesForLevel_within_level_witness :
  Forall (fun f => level f <= 3)
    (classFeatures
       (actor (ensureClassFeaturesForLevel Demo.derive Demo.idSource Demo.progressionGame 3
                 Demo.progressionStart).2)).
Proof.
  apply (ensureClassFeaturesForLevel_within_level Demo.derive Demo.idSource
           Demo.progressionGame 3 Demo.progressionStart _ Demo.progressionClass eq_refl).
  - intros entry Hin. simpl in Hin.
    repeat (apply elem_of_cons in Hin as [->|Hin]; [done|]).
    by apply elem_of_nil in Hin.
  - repeat constructor. simpl. lia.
  - vm_compute. reflexivity.
Defined.

(** X11 on the assurance example: the character ends with the one ancestry. *)
Lemma addABCItem_single_record_witness :
  ∃ item,
    filter (fun i => type i = type Demo.assuranceAncestry)
      (actor_items
         (actor (addABCItem Demo.derive Demo.sluggify Demo.idSource Demo.assuranceGame
                   Demo.assuranceAncestry (Some (mkOptions (Some ["Stealth"])))
                   Demo.noItems).2)) = [item] ∧
    item ∈ [set_id "id0" Demo.assuranceAncestry;
            mkSource "id3" "Assurance (Stealth)" TyFeat (Some "assurance-stealth") "skill"
                     1 (Some "id0") (Some "ast") [] None;
            mkSource "id2" "Keen Eyes" TyFeat (Some "keen-eyes") "ancestryfeature" 0
                     (Some "id0") (Some "kn") [] None] ∧
    _id item = Demo.idSource (drawn Demo.noItems) ∧
    name item = name Demo.assuranceAncestry ∧ items item = items Demo.assuranceAncestry.
Proof.
  apply (addABCItem_single_record Demo.derive Demo.sluggify Demo.idSource
           Demo.assuranceGame Demo.assuranceAncestry
           (Some (mkOptions (Some ["Stealth"]))) Demo.noItems).
  - by left.
  - simpl. lia.
  - discriminate.
  - intros docs Hdocs. vm_compute in Hdocs. injection Hdocs as <-.
    repeat constructor.
  - vm_compute. reflexivity.
Defined.

(** X12 on the assurance example: one assurance feat, one skill, none left. *)
Lemma addABCItem_assurance_count_witness :
  ∃ features,
    (getFeatures Demo.derive Demo.idSource Demo.assuranceGame
       (Object_values (items Demo.assuranceAncestry)) (Demo.idSource 0)
       (addDrawn 1 (setActor (withoutItem (type Demo.assuranceAncestry)
                                (actor Demo.noItems)) Demo.noItems))).1
      = inr features ∧
    assuranceCount
      [set_id "id0" Demo.assuranceAncestry;
       mkSource "id3" "Assurance (Stealth)" TyFeat (Some "assurance-stealth") "skill" 1
                (Some "id0") (Some "ast") [] None;
       mkSource "id2" "Keen Eyes" TyFeat (Some "keen-eyes") "ancestryfeature" 0
                (Some "id0") (Some "kn") [] None] =
      (assuranceCount (set_id (Demo.idSource 0) Demo.assuranceAncestry :: features)
       - length ["Stealth"])%nat ∧
    length
      [set_id "id0" Demo.assuranceAncestry;
       mkSource "id3" "Assurance (Stealth)" TyFeat (Some "assurance-stealth") "skill" 1
                (Some "id0") (Some "ast") [] None;
       mkSource "id2" "Keen Eyes" TyFeat (Some "keen-eyes") "ancestryfeature" 0
                (Some "id0") (Some "kn") [] None] = S (length features).
Proof.
  apply (addABCItem_assurance_count Demo.derive Demo.sluggify Demo.idSource
           Demo.assuranceGame Demo.assuranceAncestry
           (Some (mkOptions (Some ["Stealth"]))) ["Stealth"] Demo.noItems _
           (addABCItem Demo.derive Demo.sluggify Demo.idSource Demo.assuranceGame
              Demo.assuranceAncestry (Some (mkOptions (Some ["Stealth"])))
              Demo.noItems).2).
  - repeat constructor. vm_compute. discriminate.
  - by left.
  - reflexivity.
  - vm_compute. reflexivity.
Defined.


(** X15 on the progression class: the levels 1 to 5 through level 2. *)
Lemma window_split_witness :
  window Demo.progressionClass 0 5 ≡ₚ
    window Demo.progressionClass 0 2 ++ window Demo.progressionClass 2 5 ∧
  ∀ entry, entry ∈ window Demo.progressionClass 0 2 ->
           entry ∉ window Demo.progressionClass 2 5.
Proof. apply (window_split Demo.progressionClass 0 2 5). lia. Defined.
